(** * TinyRange: the range parser of [index.js], embedded and verified

    Three modules hold the definitions:

    - [Regex]: the regular expressions of [options.res] and
      [RegExp.prototype.test], as a derivative-based matcher;
    - [JS]: the string and array primitives the parser calls
      ([replace], [split], [indexOf], [substr], [slice], [parseFloat],
      [Array.prototype.sort]);
    - [TinyRange]: the constructor's options, the five token parsers,
      [parse] and [_merge].

    The facts follow in the same order: the matcher decides the language
    of its expression, the primitives, the parser, and last the
    properties of [parse].

    Strings are sequences of UTF-16 code units, a code unit being a
    number of type [N].  Numbers are the integers of [Z]: every number the
    parser handles comes from [parseFloat] on an optionally negated run
    of decimal digits, or is one of the two bounds, and the parser only
    compares them, subtracts two of them and adds one.  This is exact
    for literals up to [2^53] in magnitude, beyond which [parseFloat]
    rounds; and [Z] does not tell [-0] from [0], which JavaScript
    compares equal. *)

From Stdlib Require Import ZArith NArith String Ascii.
From stdpp Require Import base tactics option list sorting.

Local Open Scope Z_scope.

(** ** Regular expressions *)

Module Regex.

(** The expressions of [options.res] are built from character classes,
    concatenation, [?] and [+].  [Void], [Alt] and [Star] are the forms
    their derivatives need. *)
Inductive regex : Type :=
  | Void
  | Eps
  | Cls (p : N → bool)
  | Cat (r1 r2 : regex)
  | Alt (r1 r2 : regex)
  | Star (r : regex).

(** [r?] and [r+]. *)
Definition Opt (r : regex) : regex := Alt Eps r.
Definition Plus (r : regex) : regex := Cat r (Star r).

(** A literal character. *)
Definition Chr (c : N) : regex := Cls (N.eqb c).

(** The words of an expression. *)
Inductive lang : regex → list N → Prop :=
  | lang_eps : lang Eps []
  | lang_cls p c : p c = true → lang (Cls p) [c]
  | lang_cat r1 r2 s1 s2 :
      lang r1 s1 → lang r2 s2 → lang (Cat r1 r2) (s1 ++ s2)
  | lang_alt_l r1 r2 s : lang r1 s → lang (Alt r1 r2) s
  | lang_alt_r r1 r2 s : lang r2 s → lang (Alt r1 r2) s
  | lang_star_nil r : lang (Star r) []
  | lang_star_app r s1 s2 :
      lang r s1 → lang (Star r) s2 → lang (Star r) (s1 ++ s2).

Fixpoint nullable (r : regex) : bool :=
  match r with
  | Void => false
  | Eps => true
  | Cls _ => false
  | Cat r1 r2 => nullable r1 && nullable r2
  | Alt r1 r2 => nullable r1 || nullable r2
  | Star _ => true
  end.

Fixpoint deriv (c : N) (r : regex) : regex :=
  match r with
  | Void => Void
  | Eps => Void
  | Cls p => if p c then Eps else Void
  | Cat r1 r2 =>
      if nullable r1
      then Alt (Cat (deriv c r1) r2) (deriv c r2)
      else Cat (deriv c r1) r2
  | Alt r1 r2 => Alt (deriv c r1) (deriv c r2)
  | Star r1 => Cat (deriv c r1) (Star r1)
  end.

Fixpoint derivs (s : list N) (r : regex) : regex :=
  match s with
  | [] => r
  | c :: s' => derivs s' (deriv c r)
  end.

(** [/^r$/.test(s)]: without the [m] flag the anchors are the two ends
    of the input, so the test succeeds when the whole of [s] is a word
    of [r]. *)
Definition test (r : regex) (s : list N) : bool := nullable (derivs s r).

End Regex.

(** ** The JavaScript primitives the parser calls *)

Module JS.

(** An ASCII string literal, as code units. *)
Definition lit (s : string) : list N := N_of_ascii <$> list_ascii_of_string s.

(** [\d]: the ten ASCII digits. *)
Definition is_digit (c : N) : bool := ((48 <=? c) && (c <=? 57))%N.

(** [\s]: the WhiteSpace and LineTerminator code points of ECMAScript:
    TAB, LF, VT, FF, CR, SP, NBSP, U+1680, U+2000..U+200A, U+2028,
    U+2029, U+202F, U+205F, U+3000 and U+FEFF. *)
Definition is_space (c : N) : bool :=
  (((9 <=? c) && (c <=? 13)) || (c =? 32) || (c =? 160) || (c =? 5760)
   || ((8192 <=? c) && (c <=? 8202)) || (c =? 8232) || (c =? 8233)
   || (c =? 8239) || (c =? 8287) || (c =? 12288) || (c =? 65279))%N.

(** [s.replace(re, '')] for a global expression [re = /[cls]+/g]: every
    maximal run of characters of the class is deleted, which leaves
    exactly the characters outside the class. *)
Definition replace_all_empty (cls : N → bool) (s : list N) : list N :=
  filter (λ c, cls c = false) s.

(** [s.split(sep)] for a one-character separator: the segments between
    the occurrences of [sep]; a string without [sep] (the empty one
    included) is its own single segment. *)
Fixpoint split (sep : N) (s : list N) : list (list N) :=
  match s with
  | [] => [[]]
  | c :: s' =>
      let segs := split sep s' in
      if (c =? sep)%N then [] :: segs else (c :: hd [] segs) :: tl segs
  end.

Fixpoint index_from (c : N) (s : list N) (i : Z) : Z :=
  match s with
  | [] => -1
  | x :: s' => if (x =? c)%N then i else index_from c s' (i + 1)
  end.

(** [s.indexOf(c, from)] for a one-character search string: the first
    position at or after [from] that holds [c], or [-1]. *)
Definition indexOf (s : list N) (c : N) (from : nat) : Z :=
  index_from c (drop from s) (Z.of_nat from).

(** A relative position of [substr] and [slice]: a negative one counts
    from the end, and the result is clamped to the string. *)
Definition rel_index (size k : Z) : Z :=
  if k <? 0 then Z.max (size + k) 0 else Z.min k size.

(** [s.substr(start)] and [s.substr(start, len)]. *)
Definition substr (s : list N) (start : Z) (len : option Z) : list N :=
  let size := Z.of_nat (length s) in
  let from := rel_index size start in
  let n := match len with
           | None => size - from
           | Some l => Z.min (Z.max l 0) (size - from)
           end in
  take (Z.to_nat n) (drop (Z.to_nat from) s).

(** [s.slice(start, end)]. *)
Definition slice (s : list N) (start end_ : Z) : list N :=
  let size := Z.of_nat (length s) in
  let from := rel_index size start in
  let to := rel_index size end_ in
  take (Z.to_nat (to - from)) (drop (Z.to_nat from) s).

(** The leading digits of a string. *)
Fixpoint take_digits (s : list N) : list N :=
  match s with
  | c :: s' => if is_digit c then c :: take_digits s' else []
  | [] => []
  end.

(** The number a run of decimal digits denotes. *)
Definition digits_value (ds : list N) : Z :=
  foldl (λ acc c, 10 * acc + Z.of_N (c - 48)) 0 ds.

(** [parseFloat(s)] on the strings the parser passes to it, which are
    pieces of a token: whitespace-free, over digits, [-] and [~].  On
    these [parseFloat] reads an optional [-] and the longest run of
    digits after it, and ignores what follows; without a digit the
    result is [NaN], here [None].  The value is the integer written,
    which is what the code returns up to [2^53] in magnitude; from
    there on the code returns the nearest double, and [Infinity] from
    about [1.8e308] on. *)
Definition parseFloat (s : list N) : option Z :=
  match s with
  | c :: s' =>
      if (c =? 45)%N
      then match take_digits s' with
           | [] => None
           | ds => Some (- digits_value ds)
           end
      else match take_digits s with
           | [] => None
           | ds => Some (digits_value ds)
           end
  | [] => None
  end.

(** [Array.prototype.sort(cmp)]: a stable sort, as the language
    requires; [x] goes before [y] when [cmp x y <= 0] and [x] came
    first. *)
Fixpoint insert_by {A} (cmp : A → A → Z) (x : A) (l : list A) : list A :=
  match l with
  | [] => [x]
  | y :: l' => if cmp x y <=? 0 then x :: l else y :: insert_by cmp x l'
  end.

Fixpoint sort {A} (cmp : A → A → Z) (l : list A) : list A :=
  match l with
  | [] => []
  | x :: l' => insert_by cmp x (sort cmp l')
  end.

(** A string stops the digits of [parseFloat] when it is empty or
    starts with something else than a digit. *)
Definition stops (rest : list N) : Prop := take_digits rest = [].

End JS.

(** ** The parser *)

Module TinyRange.

Import Regex JS.

(** A range [[low, high]] as the token parsers build it. *)
Abbreviation interval := (Z * Z)%type.

(** An element of the array [parse] returns: [r[0] == r[1] ? r[0] : r]. *)
Inductive item : Type :=
  | Scalar (v : Z)
  | Range (r : interval).

(** What a call can throw: the [Error] of [parse], or the [TypeError]
    of reading an index of [null] or [undefined]. *)
Inductive exn : Type :=
  | InvalidString
  | TypeError.

Inductive completion (A : Type) : Type :=
  | Return (v : A)
  | Throw (e : exn).
Arguments Return {A} v.
Arguments Throw {A} e.

(** [options.res]; [blank] is kept as the character class of [/\s+/g]. *)
Record patterns : Type := {
  range : regex;
  blank : N → bool;
  number : regex;
  min2num : regex;
  num2max : regex;
  num2num : regex;
  numdashnum : regex
}.

Record options : Type := {
  min : Z;
  max : Z;
  res : patterns
}.

(** The class [[\s\d\-~,]] of the [range] pattern. *)
Definition range_class (c : N) : bool :=
  is_space c || is_digit c || (c =? 45)%N || (c =? 126)%N || (c =? 44)%N.

(** [\-?\d+], which every token pattern is made of. *)
Definition int_re : regex := Cat (Opt (Chr 45)) (Plus (Cls is_digit)).

(** The constructor. *)
Definition new : options :=
  let max := 2 ^ 32 - 1 in
  {| min := - max;
     max := max;
     res := {|
       range := Plus (Cls range_class);
       blank := is_space;
       number := int_re;
       min2num := Cat (Chr 126) int_re;
       num2max := Cat int_re (Chr 126);
       num2num := Cat int_re (Cat (Chr 126) int_re);
       numdashnum := Cat int_re (Cat (Chr 45) int_re)
     |}
  |}.

(** [TinyRange.parser].  A [NaN] out of [parseFloat] is [None]; on a
    segment that matched its pattern there is none
    ([parse_segment_matched] below). *)
Module parser.

Definition number (s : list N) (opts : options) : option interval :=
  d ← parseFloat s;
  Some (d, d).

Definition min2num (s : list N) (opts : options) : option interval :=
  n ← parseFloat (substr s 1 None);
  Some (min opts, n).

Definition num2max (s : list N) (opts : options) : option interval :=
  n ← parseFloat (slice s 0 (-1));
  Some (n, max opts).

Definition num2num (s : list N) (opts : options) : option interval :=
  match parseFloat <$> split 126 s with
  | [Some r0; Some r1] => if r0 >? r1 then Some (r1, r0) else Some (r0, r1)
  | _ => None
  end.

Definition numdashnum (s : list N) (opts : options) : option interval :=
  let d := indexOf s 45 1 in
  r0 ← parseFloat (substr s 0 (Some d));
  r1 ← parseFloat (substr s (d + 1) None);
  if r0 >? r1 then Some (r1, r0) else Some (r0, r1).

End parser.

(** The names [parse] tries in turn, each with its pattern and parser. *)
Definition shapes :
    list ((patterns → regex) * (list N → options → option interval)) :=
  [ (number, parser.number); (min2num, parser.min2num);
    (num2max, parser.num2max); (num2num, parser.num2num);
    (numdashnum, parser.numdashnum) ].

(** The [some] loop of [parse]: the first pattern that matches decides. *)
Fixpoint first_matched
    (names : list ((patterns → regex) * (list N → options → option interval)))
    (opts : options) (s : list N) : option interval :=
  match names with
  | [] => None
  | (re, p) :: names' =>
      if test (re (res opts)) s then p s opts else first_matched names' opts s
  end.

(** The body of the [forEach] of [parse]: what a segment pushes on [rg]. *)
Definition parse_segment (opts : options) (s : list N) : option interval :=
  if (length s =? 0)%nat then None else first_matched shapes opts s.

(** The segments of the input: [str.replace(blank, '').split(',')]. *)
Definition segments (opts : options) (str : list N) : list (list N) :=
  split 44 (replace_all_empty (blank (res opts)) str).

(** [rg] at the end of the [forEach]. *)
Definition collect (opts : options) (str : list N) : list interval :=
  omap (parse_segment opts) (segments opts str).

(** The array [_merge] works on: a slot is a range or [null]. *)
Abbreviation slots := (list (option interval)).

(** One turn of the [for] loop of [_merge], from [(rg, n)] at index [i].
    The sum [rn.2 + 1] is exact, as it is in the code when the high end
    is below [2^53] in magnitude; from there on the code's sum is
    rounded to a double. *)
Definition merge_step (st : slots * nat) (i : nat) : option (slots * nat) :=
  let '(rg, n) := st in
  ri ← mjoin (rg !! i);
  rn ← mjoin (rg !! n);
  if ri.1 >? rn.2 + 1 then Some (rg, i)
  else
    let rg1 := if rn.2 <? ri.2 then <[n := Some (rn.1, ri.2)]> rg else rg in
    Some (<[i := None]> rg1, n).

Fixpoint merge_loop (ixs : list nat) (st : slots * nat) : option (slots * nat) :=
  match ixs with
  | [] => Some st
  | i :: ixs' => st' ← merge_step st i; merge_loop ixs' st'
  end.

(** [r[0] == r[1] ? r[0] : r]. *)
Definition wrap (r : interval) : item :=
  if r.1 =? r.2 then Scalar r.1 else Range r.

(** [_merge]; [None] is a [TypeError] in the loop. *)
Definition _merge (rg : list interval) : option (list item) :=
  let len := length rg in
  match merge_loop (seq 1 (len - 1)) (Some <$> rg, 0%nat) with
  | Some (rg', _) => Some (omap (fmap wrap) rg')
  | None => None
  end.

(** The comparison function of the sort. *)
Definition by_low (r1 r2 : interval) : Z := r1.1 - r2.1.

Definition parse (this : options) (str : list N) : completion (list item) :=
  let opts := this in
  if negb (test (range (res opts)) str) then Throw InvalidString
  else
    let rg := collect opts str in
    if (length rg =? 0)%nat then Return []
    else match _merge (sort by_low rg) with
         | Some ret => Return ret
         | None => Throw TypeError
         end.

(** *** Notions the properties are stated with *)

(** What the loop of [_merge] leaves: it keeps a current range at index
    [n], nulls the slots it merges into it, and leaves the ranges before
    [n] as they are.  [merge_from] is that walk over the list with the
    current range in hand. *)
Fixpoint merge_from (cur : interval) (l : list interval) : list interval :=
  match l with
  | [] => [cur]
  | r :: l' =>
      if r.1 >? cur.2 + 1 then cur :: merge_from r l'
      else merge_from (cur.1, if cur.2 <? r.2 then r.2 else cur.2) l'
  end.

Definition merged (l : list interval) : list interval :=
  match l with
  | [] => []
  | r :: l' => merge_from r l'
  end.

(** The two ends of an element of the result. *)
Definition low (x : item) : Z :=
  match x with Scalar v => v | Range r => r.1 end.

Definition high (x : item) : Z :=
  match x with Scalar v => v | Range r => r.2 end.

(** Ascending lows; and a gap of at least one integer between a range
    and every later one. *)
Definition le_low (a b : interval) : Prop := a.1 ≤ b.1.
Definition apart (a b : interval) : Prop := a.2 + 1 < b.1.

(** A run of at least one digit. *)
Definition digits (ds : list N) : Prop :=
  ds ≠ [] ∧ Forall (λ c, is_digit c = true) ds.

(** A range with its bounds in order, and the integers a list of ranges
    covers. *)
Definition ordered (r : interval) : Prop := r.1 ≤ r.2.

Definition covers (l : list interval) (z : Z) : Prop :=
  ∃ r, r ∈ l ∧ r.1 ≤ z ≤ r.2.

(** The integers an array returned by [parse] stands for: a bare number
    stands for itself, a range for the integers between its ends. *)
Definition denotes (out : list item) (z : Z) : Prop :=
  ∃ x, x ∈ out ∧ low x ≤ z ≤ high x.

(** [Number.isSafeInteger]: an integer strictly between [-2^53] and
    [2^53].  On such numbers the model is the code: [parseFloat] returns
    the number as it is written and adding one is exact.  Beyond them
    the code rounds to the nearest double where [Z] does not, so a
    property that rests on the exact value of a number, or of a high
    end plus one, is stated for safe numbers. *)
Definition safe (v : Z) : Prop := - 2 ^ 53 < v < 2 ^ 53.

Definition safe_range (r : interval) : Prop := safe r.1 ∧ safe r.2.

(** The characters a segment that matches a pattern is made of. *)
Definition token_char (c : N) : Prop :=
  is_digit c = true ∨ c = 45%N ∨ c = 126%N.

End TinyRange.

Import Regex JS TinyRange.

(** ** The matcher decides the language *)

(** Inversion of [lang], one lemma per form. *)
Lemma lang_void_inv s : ¬ lang Void s.
Proof. inversion 1. Qed.

Lemma lang_eps_inv s : lang Eps s → s = [].
Proof. by inversion 1. Qed.

Lemma lang_cls_inv p s : lang (Cls p) s → ∃ c, s = [c] ∧ p c = true.
Proof. inversion 1; subst. eauto. Qed.

Lemma lang_cat_inv r1 r2 s :
  lang (Cat r1 r2) s → ∃ s1 s2, s = s1 ++ s2 ∧ lang r1 s1 ∧ lang r2 s2.
Proof. inversion 1; subst. eauto. Qed.

Lemma lang_alt_inv r1 r2 s : lang (Alt r1 r2) s → lang r1 s ∨ lang r2 s.
Proof. inversion 1; subst; auto. Qed.

Lemma nullable_lang r : nullable r = true ↔ lang r [].
Proof.
  induction r as [| |p|r1 IH1 r2 IH2|r1 IH1 r2 IH2|r IH]; simpl.
  - split; [done | by intros ?%lang_void_inv].
  - split; [constructor | done].
  - split; [done | by intros (c & ? & _)%lang_cls_inv].
  - rewrite andb_true_iff, IH1, IH2. split.
    + intros [H1 H2]. apply (lang_cat _ _ [] []); done.
    + intros (s1 & s2 & E & H1 & H2)%lang_cat_inv.
      symmetry in E. apply app_eq_nil in E as [-> ->]. done.
  - rewrite orb_true_iff, IH1, IH2. split.
    + intros [H|H]; [by apply lang_alt_l | by apply lang_alt_r].
    + apply lang_alt_inv.
  - split; [constructor | done].
Qed.

(** A non-empty word of [r*] starts with a non-empty word of [r]. *)
Lemma lang_star_cons r c s :
  lang (Star r) (c :: s) →
  ∃ s1 s2, s = s1 ++ s2 ∧ lang r (c :: s1) ∧ lang (Star r) s2.
Proof.
  intros H. remember (Star r) as r' eqn:Er. remember (c :: s) as w eqn:Ew.
  revert Er Ew.
  induction H as [| | | | | |r0 s1 s2 H1 _ H2 IH2]; intros Er Ew; try done.
  injection Er as ->. destruct s1 as [|c1 s1]; simpl in Ew.
  - by apply IH2.
  - injection Ew as -> <-. by exists s1, s2.
Qed.

Lemma deriv_lang c r s : lang (deriv c r) s ↔ lang r (c :: s).
Proof.
  revert s.
  induction r as [| |p|r1 IH1 r2 IH2|r1 IH1 r2 IH2|r IH]; intros s; simpl.
  - split; by intros ?%lang_void_inv.
  - split; [by intros ?%lang_void_inv | by intros ?%lang_eps_inv].
  - destruct (p c) eqn:Hp; split.
    + intros ->%lang_eps_inv. by constructor.
    + intros (c' & [= <- ->] & _)%lang_cls_inv. constructor.
    + by intros ?%lang_void_inv.
    + intros (c' & [= <- ->] & ?)%lang_cls_inv. congruence.
  - assert (Hcat : lang (Cat (deriv c r1) r2) s → lang (Cat r1 r2) (c :: s)).
    { intros (s1 & s2 & -> & H1 & H2)%lang_cat_inv.
      apply (lang_cat r1 r2 (c :: s1) s2); [by apply IH1 | done]. }
    assert (Hinv : lang (Cat r1 r2) (c :: s) →
              lang (Cat (deriv c r1) r2) s ∨
              (lang r1 [] ∧ lang (deriv c r2) s)).
    { intros (s1 & s2 & E & H1 & H2)%lang_cat_inv.
      destruct s1 as [|c1 s1]; simpl in E.
      - right. subst s2. split; [done | by apply IH2].
      - injection E as <- ->. left. constructor; [by apply IH1 | done]. }
    destruct (nullable r1) eqn:Hn.
    + split.
      * intros [H|H]%lang_alt_inv; [by apply Hcat |].
        apply (lang_cat r1 r2 [] (c :: s)); [by apply nullable_lang | by apply IH2].
      * intros H. destruct (Hinv H) as [H'|[_ H']];
          [by apply lang_alt_l | by apply lang_alt_r].
    + split; [done |].
      intros H. destruct (Hinv H) as [H'|[H' _]]; [done |].
      apply nullable_lang in H'. congruence.
  - split.
    + intros [H|H]%lang_alt_inv;
        [apply lang_alt_l; by apply IH1 | apply lang_alt_r; by apply IH2].
    + intros [H|H]%lang_alt_inv;
        [apply lang_alt_l; by apply IH1 | apply lang_alt_r; by apply IH2].
  - split.
    + intros (s1 & s2 & -> & H1 & H2)%lang_cat_inv.
      apply (lang_star_app r (c :: s1) s2); [by apply IH | done].
    + intros H. apply lang_star_cons in H as (s1 & s2 & -> & H1 & H2).
      constructor; [by apply IH | done].
Qed.

(** The languages of the forms the patterns are written with. *)
Lemma lang_cat_iff r1 r2 s :
  lang (Cat r1 r2) s ↔ ∃ s1 s2, s = s1 ++ s2 ∧ lang r1 s1 ∧ lang r2 s2.
Proof.
  split; [apply lang_cat_inv |].
  intros (s1 & s2 & -> & H1 & H2). by constructor.
Qed.

Lemma lang_chr c s : lang (Chr c) s ↔ s = [c].
Proof.
  unfold Chr. split.
  - intros (c' & -> & E%N.eqb_eq)%lang_cls_inv. by subst.
  - intros ->. constructor. apply N.eqb_refl.
Qed.

Lemma lang_opt r s : lang (Opt r) s ↔ s = [] ∨ lang r s.
Proof.
  unfold Opt. split.
  - intros [->%lang_eps_inv|H]%lang_alt_inv; auto.
  - intros [->|H]; [apply lang_alt_l; constructor | by apply lang_alt_r].
Qed.

Lemma lang_star_cls p s :
  lang (Star (Cls p)) s ↔ Forall (λ c, p c = true) s.
Proof.
  split.
  - intros H. remember (Star (Cls p)) as r eqn:Er. revert Er.
    induction H as [| | | | | |r s1 s2 H1 _ _ IH2]; intros Er; try done.
    injection Er as ->. apply lang_cls_inv in H1 as (c & -> & Hc).
    constructor; [done | by apply IH2].
  - induction 1 as [|c s Hc _ IH]; [constructor |].
    apply (lang_star_app _ [c] s); [by constructor | done].
Qed.

Lemma lang_plus_cls p s :
  lang (Plus (Cls p)) s ↔ s ≠ [] ∧ Forall (λ c, p c = true) s.
Proof.
  unfold Plus. rewrite lang_cat_iff. split.
  - intros (s1 & s2 & -> & (c & -> & Hc)%lang_cls_inv & H2%lang_star_cls).
    split; [done | by constructor].
  - intros [Hne H]. destruct H as [|c s Hc H]; [done |].
    exists [c], s. split_and!; [done | by constructor | by apply lang_star_cls].
Qed.

(** The matcher decides the language. *)
Lemma test_lang r s : test r s = true ↔ lang r s.
Proof.
  unfold test. revert r. induction s as [|c s IH]; intros r; simpl.
  - apply nullable_lang.
  - rewrite IH. apply deriv_lang.
Qed.

Lemma test_false_lang r s : test r s = false ↔ ¬ lang r s.
Proof. rewrite <- test_lang. destruct (test r s); naive_solver. Qed.

(** ** Facts about the primitives *)

Lemma split_not_nil sep s : split sep s ≠ [].
Proof. destruct s as [|c s]; simpl; [done |]. by destruct (c =? sep)%N. Qed.

Lemma split_no_sep sep s : sep ∉ s → split sep s = [s].
Proof.
  induction s as [|c s IH]; intros Hs; simpl; [done |].
  apply not_elem_of_cons in Hs as [Hc Hs].
  destruct (N.eqb_spec c sep) as [->|_]; [done |].
  by rewrite (IH Hs).
Qed.

Lemma split_app_sep sep s1 s2 :
  split sep (s1 ++ sep :: s2) = split sep s1 ++ split sep s2.
Proof.
  induction s1 as [|c s1 IH]; simpl.
  - by rewrite N.eqb_refl.
  - rewrite IH. destruct (c =? sep)%N; [done |].
    pose proof (split_not_nil sep s1) as Hne.
    by destruct (split sep s1).
Qed.

Lemma replace_all_empty_app cls s1 s2 :
  replace_all_empty cls (s1 ++ s2) =
  replace_all_empty cls s1 ++ replace_all_empty cls s2.
Proof. apply filter_app. Qed.

Lemma index_from_first c pre post i :
  c ∉ pre → index_from c (pre ++ c :: post) i = i + Z.of_nat (length pre).
Proof.
  revert i. induction pre as [|x pre IH]; intros i Hc; simpl.
  - rewrite N.eqb_refl. lia.
  - apply not_elem_of_cons in Hc as [Hx Hc].
    destruct (N.eqb_spec x c) as [->|_]; [done |].
    rewrite (IH _ Hc). lia.
Qed.

Lemma substr_prefix (s1 s2 : list N) :
  substr (s1 ++ s2) 0 (Some (Z.of_nat (length s1))) = s1.
Proof.
  unfold substr, rel_index. simpl. rewrite length_app.
  replace (Z.to_nat (Z.min 0 _)) with 0%nat by lia.
  replace (Z.to_nat _) with (length s1) by lia.
  by rewrite drop_0, take_app_length.
Qed.

Lemma substr_suffix (s1 s2 : list N) :
  substr (s1 ++ s2) (Z.of_nat (length s1)) None = s2.
Proof.
  unfold substr, rel_index. rewrite length_app.
  destruct (Z.ltb_spec (Z.of_nat (length s1)) 0); [lia |].
  replace (Z.to_nat (Z.min _ _)) with (length s1) by lia.
  rewrite drop_app_length.
  replace (Z.to_nat _) with (length s2) by lia.
  apply firstn_all.
Qed.

Lemma slice_drop_last (s : list N) c : slice (s ++ [c]) 0 (-1) = s.
Proof.
  unfold slice, rel_index. rewrite length_app. simpl.
  replace (Z.to_nat (Z.min 0 _)) with 0%nat by lia.
  replace (Z.to_nat _) with (length s) by lia.
  by rewrite drop_0, take_app_length.
Qed.

Lemma digits_value_snoc ds c :
  digits_value (ds ++ [c]) = 10 * digits_value ds + Z.of_N (c - 48).
Proof. unfold digits_value. by rewrite foldl_snoc. Qed.

Lemma digits_value_nonneg ds : 0 ≤ digits_value ds.
Proof.
  induction ds as [|c ds IH] using rev_ind; [done |].
  rewrite digits_value_snoc. lia.
Qed.

Lemma take_digits_app ds rest :
  Forall (λ c, is_digit c = true) ds →
  take_digits (ds ++ rest) = ds ++ take_digits rest.
Proof.
  induction 1 as [|c ds Hc _ IH]; simpl; [done |]. by rewrite Hc, IH.
Qed.

Lemma stops_nil : stops [].
Proof. done. Qed.

Lemma stops_cons c rest : is_digit c = false → stops (c :: rest).
Proof. unfold stops. simpl. by intros ->. Qed.

Lemma parseFloat_digits ds rest :
  ds ≠ [] → Forall (λ c, is_digit c = true) ds → stops rest →
  parseFloat (ds ++ rest) = Some (digits_value ds).
Proof.
  intros Hne Hds Hrest. pose proof (take_digits_app ds rest Hds) as E.
  rewrite Hrest, app_nil_r in E.
  destruct ds as [|c ds]; [done |]. unfold parseFloat.
  change ((c :: ds) ++ rest) with (c :: (ds ++ rest)) in *.
  apply Forall_cons in Hds as [Hc _].
  destruct (N.eqb_spec c 45) as [->|_]; [done |].
  by rewrite E.
Qed.

Lemma parseFloat_minus_digits ds rest :
  ds ≠ [] → Forall (λ c, is_digit c = true) ds → stops rest →
  parseFloat (45%N :: ds ++ rest) = Some (- digits_value ds).
Proof.
  intros Hne Hds Hrest. pose proof (take_digits_app ds rest Hds) as E.
  rewrite Hrest, app_nil_r in E.
  unfold parseFloat. rewrite N.eqb_refl, E. by destruct ds.
Qed.

(** The sort permutes its argument. *)
Lemma insert_by_perm {A} (cmp : A → A → Z) x l : insert_by cmp x l ≡ₚ x :: l.
Proof.
  induction l as [|y l IH]; simpl; [done |].
  destruct (cmp x y <=? 0); [done |].
  by rewrite IH, Permutation_swap.
Qed.

Lemma sort_perm {A} (cmp : A → A → Z) l : sort cmp l ≡ₚ l.
Proof.
  induction l as [|x l IH]; simpl; [done |].
  by rewrite insert_by_perm, IH.
Qed.

(** With a comparison function that is the difference of a key, the
    result is in ascending order of the key. *)
Section sort_by_key.
Context {A : Type} (key : A → Z).

Lemma insert_by_sorted x l :
  StronglySorted (λ a b, key a ≤ key b) l →
  StronglySorted (λ a b, key a ≤ key b) (insert_by (λ a b, key a - key b) x l).
Proof.
  induction 1 as [|y l Hl IH Hy]; simpl.
  - repeat constructor.
  - destruct (Z.leb_spec (key x - key y) 0) as [Hxy|Hxy].
    + constructor; [by constructor |].
      constructor; [lia |].
      eapply Forall_impl; [exact Hy |]. simpl. lia.
    + constructor; [done |].
      rewrite insert_by_perm. constructor; [lia | done].
Qed.

Lemma sort_sorted l :
  StronglySorted (λ a b, key a ≤ key b) (sort (λ a b, key a - key b) l).
Proof.
  induction l as [|x l IH]; simpl; [constructor |].
  by apply insert_by_sorted.
Qed.

End sort_by_key.

(** ** Facts about the parser *)

(** *** [_merge] as a function of the sorted list *)

Lemma omap_replicate_None {A B} (f : option A → option B) k :
  f None = None → omap f (replicate k None) = [].
Proof. intros Hf. induction k as [|k IH]; simpl; [done |]. by rewrite Hf. Qed.

(** The loop from index [length pre + 1 + k] on, the current range
    [cur] being at index [length pre], followed by [k] nulled slots and
    the ranges [rest] still to visit. *)
Lemma merge_loop_spec rest : ∀ pre cur k,
  ∃ rg' n',
    merge_loop (seq (length pre + 1 + k) (length rest))
      (pre ++ Some cur :: replicate k None ++ (Some <$> rest), length pre)
    = Some (rg', n') ∧
    omap (fmap wrap) rg' =
      omap (fmap wrap) pre ++ (wrap <$> merge_from cur rest).
Proof.
  induction rest as [|r rest IH]; intros pre cur k.
  - eexists _, _. split; [done |].
    rewrite omap_app. f_equal. simpl. f_equal.
    rewrite app_nil_r. by apply omap_replicate_None.
  - assert (Hi : (pre ++ Some cur :: replicate k None ++ (Some <$> r :: rest))
                 !! (length pre + 1 + k)%nat = Some (Some r)).
    { rewrite lookup_app_r by lia.
      replace (length pre + 1 + k - length pre)%nat with (S k) by lia.
      simpl. rewrite lookup_app_r by (rewrite length_replicate; lia).
      rewrite length_replicate, Nat.sub_diag. done. }
    assert (Hn : (pre ++ Some cur :: replicate k None ++ (Some <$> r :: rest))
                 !! length pre = Some (Some cur)).
    { by apply list_lookup_middle. }
    cbn [length seq merge_loop]. unfold merge_step at 1.
    rewrite Hi, Hn. cbn [mjoin option_join mbind option_bind].
    cbn [merge_from].
    destruct (r.1 >? cur.2 + 1) eqn:Hgap; cbn [mbind option_bind].
    + destruct (IH (pre ++ Some cur :: replicate k None) r 0%nat)
        as (rg' & n' & Hloop & Hout).
      rewrite length_app in Hloop. cbn [length] in Hloop.
      rewrite length_replicate in Hloop.
      replace (length pre + S k + 1 + 0)%nat
        with (S (length pre + 1 + k)) in Hloop by lia.
      replace (length pre + S k)%nat
        with (length pre + 1 + k)%nat in Hloop by lia.
      rewrite <- app_assoc in Hloop. cbn [app replicate] in Hloop.
      cbn [fmap list_fmap].
      exists rg', n'. split; [exact Hloop |].
      rewrite Hout, omap_app. cbn [omap list_omap fmap option_fmap option_map].
      rewrite (omap_replicate_None _ k) by done.
      by rewrite <- app_assoc.
    + set (cur' := (cur.1, if cur.2 <? r.2 then r.2 else cur.2)).
      destruct (IH pre cur' (S k)) as (rg' & n' & Hloop & Hout).
      replace (length pre + 1 + S k)%nat
        with (S (length pre + 1 + k)) in Hloop by lia.
      exists rg', n'. split; [| exact Hout].
      rewrite <- Hloop. f_equal. f_equal.
      assert (E1 : (if cur.2 <? r.2
                    then <[length pre := Some (cur.1, r.2)]>
                           (pre ++ Some cur :: replicate k None
                                ++ (Some <$> r :: rest))
                    else pre ++ Some cur :: replicate k None
                             ++ (Some <$> r :: rest))
                   = pre ++ Some cur' :: replicate k None
                         ++ (Some <$> r :: rest)).
      { subst cur'. destruct (cur.2 <? r.2).
        - replace (length pre) with (length pre + 0)%nat at 1 by lia.
          by rewrite insert_app_r.
        - by destruct cur. }
      rewrite E1.
      replace (length pre + 1 + k)%nat
        with (length pre + S (length (replicate k (@None interval)) + 0))%nat
        by (rewrite length_replicate; lia).
      rewrite insert_app_r. cbn [insert list_insert].
      f_equal. f_equal.
      rewrite (insert_app_r (replicate k None) (Some <$> r :: rest) 0 None).
      by rewrite replicate_S_end, <- app_assoc.
Qed.

(** [_merge] never reads a slot that is [null] or out of range, and
    returns the wrapped [merged] list. *)
Lemma _merge_merged rg : _merge rg = Some (wrap <$> merged rg).
Proof.
  destruct rg as [|r rest]; [done |].
  unfold _merge. cbn [length fmap list_fmap merged].
  destruct (merge_loop_spec rest [] r 0%nat) as (rg' & n' & Hloop & Hout).
  cbn [length app replicate Nat.add] in Hloop.
  replace (S (length rest) - 1)%nat with (length rest) by lia.
  rewrite Hloop. by rewrite Hout.
Qed.

(** [parse] in terms of [merged]: the only exception is the one it
    throws itself. *)
Lemma parse_merged opts str :
  parse opts str =
  if test (range (res opts)) str
  then Return (wrap <$> merged (sort by_low (collect opts str)))
  else Throw InvalidString.
Proof.
  unfold parse. destruct (test _ str); simpl; [| done].
  destruct (collect opts str) as [|r rg] eqn:E; [done |].
  assert ((length (r :: rg) =? 0)%nat = false) as -> by done.
  by rewrite _merge_merged.
Qed.

(** *** The shape of the result *)

Lemma low_wrap r : low (wrap r) = r.1.
Proof. unfold wrap. by destruct (r.1 =? r.2). Qed.

Lemma high_wrap r : high (wrap r) = r.2.
Proof. unfold wrap. destruct (Z.eqb_spec r.1 r.2); simpl; congruence. Qed.

Lemma StronglySorted_lookup {A} (R : relation A) l i j a b :
  StronglySorted R l → (i < j)%nat →
  l !! i = Some a → l !! j = Some b → R a b.
Proof.
  intros Hl. revert i j. induction Hl as [|x l _ IH Hx]; intros i j Hij Hi Hj.
  - done.
  - destruct j as [|j]; [lia |]. destruct i as [|i]; simpl in *.
    + injection Hi as ->. rewrite Forall_forall in Hx.
      apply Hx. by eapply list_elem_of_lookup_2.
    + apply (IH i j); [lia | done | done].
Qed.

(** Every range [merge_from] emits starts where the current range or
    one of the ranges of the list does. *)
Lemma merge_from_lows (P : Z → Prop) cur l :
  P cur.1 → Forall (λ r, P r.1) l → Forall (λ r, P r.1) (merge_from cur l).
Proof.
  revert cur. induction l as [|r l IH]; intros cur Hcur Hl; simpl.
  - by constructor.
  - apply Forall_cons in Hl as [Hr Hl].
    destruct (r.1 >? cur.2 + 1).
    + constructor; [done | by apply IH].
    + by apply IH.
Qed.

Lemma merge_from_sorted cur l :
  StronglySorted le_low (cur :: l) →
  StronglySorted le_low (merge_from cur l) ∧
  StronglySorted apart (merge_from cur l).
Proof.
  revert cur. induction l as [|r l IH]; intros cur Hs; simpl.
  - split; repeat constructor.
  - apply StronglySorted_inv in Hs as [Hrl Hcur].
    apply Forall_cons in Hcur as [Hr Hcur].
    destruct (Z.gtb_spec r.1 (cur.2 + 1)) as [Hgap|Hgap].
    + destruct (IH r Hrl) as [IH1 IH2].
      apply StronglySorted_inv in Hrl as [_ Hrl].
      split; (constructor; [done |]).
      * apply (merge_from_lows (λ z, cur.1 ≤ z)); done.
      * apply (merge_from_lows (λ z, cur.2 + 1 < z)); [lia |].
        eapply Forall_impl; [exact Hrl |]. unfold le_low. simpl. lia.
    + apply IH. apply StronglySorted_inv in Hrl as [Hl _].
      constructor; [done |].
      eapply Forall_impl; [exact Hcur |]. done.
Qed.

Lemma merged_sorted l :
  StronglySorted le_low l →
  StronglySorted le_low (merged l) ∧ StronglySorted apart (merged l).
Proof.
  destruct l as [|r l]; simpl; [split; constructor |].
  apply merge_from_sorted.
Qed.

Lemma sort_by_low_sorted l : StronglySorted le_low (sort by_low l).
Proof. apply (sort_sorted fst). Qed.

(** *** The token patterns *)

Lemma digit_other c :
  is_digit c = true → c ≠ 45%N ∧ c ≠ 126%N ∧ c ≠ 44%N ∧ is_space c = false.
Proof.
  unfold is_digit, is_space. intros [H1 H2]%andb_true_iff.
  apply N.leb_le in H1, H2.
  split_and!; [lia | lia | lia |].
  repeat match goal with
         | |- context [(?a <=? ?b)%N] => destruct (N.leb_spec a b); try lia
         | |- context [(?a =? ?b)%N] => destruct (N.eqb_spec a b); try lia
         end; reflexivity.
Qed.

Lemma digits_no c ds :
  (c = 45 ∨ c = 126 ∨ c = 44)%N → Forall (λ c, is_digit c = true) ds → c ∉ ds.
Proof.
  intros Hc Hds Hin. rewrite Forall_forall in Hds.
  destruct (digit_other c (Hds c Hin)) as (? & ? & ? & _).
  by destruct Hc as [?|[?|?]].
Qed.

(** [\-?\d+]: a run of digits, with or without a [-] in front. *)
Lemma lang_int_re s :
  lang int_re s ↔ ∃ ds, digits ds ∧ (s = ds ∨ s = 45%N :: ds).
Proof.
  unfold int_re, digits. rewrite lang_cat_iff. split.
  - intros (s1 & s2 & -> & [->|E%lang_chr]%lang_opt & H2%lang_plus_cls);
      subst; exists s2; auto.
  - intros (ds & Hds & [->| ->]).
    + exists [], ds. split_and!; [done | apply lang_opt; auto |].
      by apply lang_plus_cls.
    + exists [45%N], ds. split_and!; [done | |by apply lang_plus_cls].
      apply lang_opt. right. by apply lang_chr.
Qed.

Lemma lang_int_re_digits ds : digits ds → lang int_re ds.
Proof. intros H. apply lang_int_re. eauto. Qed.

Lemma lang_int_re_minus ds : digits ds → lang int_re (45%N :: ds).
Proof. intros H. apply lang_int_re. eauto. Qed.

(** An integer literal starts with a digit or [-], has no [-] further
    on, has no [~] and no comma, and ends with a digit. *)
Lemma int_re_head s :
  lang int_re s →
  ∃ c t, s = c :: t ∧ (c ≠ 126%N) ∧ (45%N ∉ t) ∧ (126%N ∉ t).
Proof.
  intros (ds & [Hne Hds] & [->| ->])%lang_int_re.
  - destruct ds as [|c ds]; [done |]. apply Forall_cons in Hds as [Hc Hds].
    exists c, ds. destruct (digit_other c Hc) as (_ & ? & _).
    split_and!; [done | done | |]; apply digits_no; auto.
  - exists 45%N, ds. split_and!; [done | done | |]; apply digits_no; auto.
Qed.

Lemma int_re_no_tilde s : lang int_re s → 126%N ∉ s.
Proof.
  intros (c & t & -> & Hc & _ & Ht)%int_re_head.
  apply not_elem_of_cons. auto.
Qed.

Lemma int_re_last s :
  lang int_re s → ∃ t c, s = t ++ [c] ∧ is_digit c = true.
Proof.
  intros (ds & [Hne Hds] & Hs)%lang_int_re.
  destruct ds as [|c ds _] using rev_ind; [done |].
  apply Forall_app in Hds as [_ [Hc _]%Forall_cons].
  destruct Hs as [->| ->]; [by exists ds, c | by exists (45%N :: ds), c].
Qed.

(** [parseFloat] of an integer literal is a number. *)
Lemma parseFloat_int_re s : lang int_re s → is_Some (parseFloat s).
Proof.
  intros (ds & [Hne Hds] & [->| ->])%lang_int_re.
  - rewrite <- (app_nil_r ds). by rewrite parseFloat_digits.
  - rewrite <- (app_nil_r ds). by rewrite parseFloat_minus_digits.
Qed.

Lemma test_number s : test (number (res new)) s = true ↔ lang int_re s.
Proof. apply test_lang. Qed.

Lemma test_min2num s :
  test (min2num (res new)) s = true ↔ ∃ t, s = 126%N :: t ∧ lang int_re t.
Proof.
  rewrite test_lang. simpl. rewrite lang_cat_iff. split.
  - intros (s1 & s2 & -> & E%lang_chr & H). subst. eauto.
  - intros (t & -> & H). exists [126%N], t. by rewrite lang_chr.
Qed.

Lemma test_num2max s :
  test (num2max (res new)) s = true ↔ ∃ t, s = t ++ [126%N] ∧ lang int_re t.
Proof.
  rewrite test_lang. simpl. rewrite lang_cat_iff. split.
  - intros (s1 & s2 & -> & H & E%lang_chr). subst. eauto.
  - intros (t & -> & H). exists t, [126%N]. by rewrite lang_chr.
Qed.

Lemma lang_sep c r1 r2 s :
  lang (Cat r1 (Cat (Chr c) r2)) s ↔
  ∃ a b, s = a ++ c :: b ∧ lang r1 a ∧ lang r2 b.
Proof.
  rewrite lang_cat_iff. split.
  - intros (a & s2 & -> & Ha & (s3 & b & -> & E%lang_chr & Hb)%lang_cat_iff).
    subst. eauto.
  - intros (a & b & -> & Ha & Hb). exists a, (c :: b). split_and!; [done.. |].
    apply lang_cat_iff. exists [c], b. by rewrite lang_chr.
Qed.

Lemma test_num2num s :
  test (num2num (res new)) s = true ↔
  ∃ a b, s = a ++ 126%N :: b ∧ lang int_re a ∧ lang int_re b.
Proof. rewrite test_lang. apply lang_sep. Qed.

Lemma test_numdashnum s :
  test (numdashnum (res new)) s = true ↔
  ∃ a b, s = a ++ 45%N :: b ∧ lang int_re a ∧ lang int_re b.
Proof. rewrite test_lang. apply lang_sep. Qed.

(** *** What a segment pushes *)

Lemma parse_segment_unfold opts s :
  s ≠ [] →
  parse_segment opts s =
  if test (number (res opts)) s then parser.number s opts
  else if test (min2num (res opts)) s then parser.min2num s opts
  else if test (num2max (res opts)) s then parser.num2max s opts
  else if test (num2num (res opts)) s then parser.num2num s opts
  else if test (numdashnum (res opts)) s then parser.numdashnum s opts
  else None.
Proof. by destruct s. Qed.

(** Settle the pattern tests in the goal one after the other. *)
Ltac test_true lem :=
  match goal with
  | |- context [test ?r ?s] =>
      let E := fresh "E" in
      assert (test r s = true) as E; [apply lem | rewrite E; clear E]
  end.

Ltac test_false lem :=
  match goal with
  | |- context [test ?r ?s] =>
      let E := fresh "E" in
      destruct (test r s) eqn:E; [exfalso; apply lem in E | clear E]
  end.

Lemma segment_number s v :
  lang int_re s → parseFloat s = Some v →
  parse_segment new s = Some (v, v).
Proof.
  intros Hs Hv. destruct (int_re_head s Hs) as (c & t & -> & _).
  rewrite parse_segment_unfold by done.
  test_true test_number; [done |].
  unfold parser.number. by rewrite Hv.
Qed.

Lemma segment_min2num s n :
  lang int_re s → parseFloat s = Some n →
  parse_segment new (126%N :: s) = Some (min new, n).
Proof.
  intros Hs Hn. rewrite parse_segment_unfold by done.
  test_false test_number.
  { apply int_re_no_tilde in E. apply E. by left. }
  test_true test_min2num; [by exists s |].
  unfold parser.min2num.
  change (126%N :: s) with ([126%N] ++ s).
  change 1 with (Z.of_nat (length [126%N])).
  by rewrite substr_suffix, Hn.
Qed.

Lemma segment_num2max s n :
  lang int_re s → parseFloat s = Some n →
  parse_segment new (s ++ [126%N]) = Some (n, max new).
Proof.
  intros Hs Hn. destruct (int_re_head s Hs) as (c & t & Es & Hc & _).
  rewrite parse_segment_unfold by (by destruct s).
  test_false test_number.
  { apply int_re_no_tilde in E. apply E, elem_of_app. right. by left. }
  test_false test_min2num.
  { destruct E as (t' & E & _). subst s. by injection E. }
  test_true test_num2max; [by exists s |].
  unfold parser.num2max. by rewrite slice_drop_last, Hn.
Qed.

Lemma segment_num2num sa sb a b :
  lang int_re sa → lang int_re sb →
  parseFloat sa = Some a → parseFloat sb = Some b →
  parse_segment new (sa ++ 126%N :: sb) =
  Some (if a >? b then (b, a) else (a, b)).
Proof.
  intros Hsa Hsb Ha Hb. destruct (int_re_head sa Hsa) as (c & t & Es & Hc & _).
  rewrite parse_segment_unfold by (by destruct sa).
  test_false test_number.
  { apply int_re_no_tilde in E. apply E, elem_of_app. right. by left. }
  test_false test_min2num.
  { destruct E as (t' & E & _). subst sa. by injection E. }
  test_false test_num2max.
  { destruct E as (t' & E & _).
    destruct (int_re_last sb Hsb) as (u & d & -> & Hd).
    change (sa ++ 126%N :: u ++ [d]) with (sa ++ (126%N :: u) ++ [d]) in E.
    rewrite app_assoc in E. apply app_inj_tail in E as [_ ->].
    by destruct (digit_other _ Hd) as (_ & ? & _). }
  test_true test_num2num; [by exists sa, sb |].
  unfold parser.num2num.
  rewrite split_app_sep, !split_no_sep by by apply int_re_no_tilde.
  simpl. rewrite Ha, Hb. by destruct (a >? b).
Qed.

Lemma segment_numdashnum sa sb a b :
  lang int_re sa → lang int_re sb →
  parseFloat sa = Some a → parseFloat sb = Some b →
  parse_segment new (sa ++ 45%N :: sb) =
  Some (if a >? b then (b, a) else (a, b)).
Proof.
  intros Hsa Hsb Ha Hb.
  destruct (int_re_head sa Hsa) as (c & t & Es & Hc & Ht & _).
  rewrite parse_segment_unfold by (by destruct sa).
  test_false test_number.
  { destruct (int_re_head _ E) as (c' & t' & E' & _ & Ht' & _).
    subst sa. injection E' as _ <-. apply Ht', elem_of_app. right. by left. }
  test_false test_min2num.
  { destruct E as (t' & E & _). subst sa. by injection E. }
  test_false test_num2max.
  { destruct E as (t' & E & _).
    destruct (int_re_last sb Hsb) as (u & d & -> & Hd).
    change (sa ++ 45%N :: u ++ [d]) with (sa ++ (45%N :: u) ++ [d]) in E.
    rewrite app_assoc in E. apply app_inj_tail in E as [_ ->].
    by destruct (digit_other _ Hd) as (_ & ? & _). }
  test_false test_num2num.
  { destruct E as (x & y & E & _).
    assert (126%N ∈ sa ++ 45%N :: sb) as Hin.
    { rewrite E. apply elem_of_app. right. by left. }
    apply elem_of_app in Hin as [Hin|Hin].
    - by apply (int_re_no_tilde sa).
    - apply elem_of_cons in Hin as [?|Hin]; [done |].
      by apply (int_re_no_tilde sb). }
  test_true test_numdashnum; [by exists sa, sb |].
  unfold parser.numdashnum.
  assert (indexOf (sa ++ 45%N :: sb) 45 1 = Z.of_nat (length sa)) as ->.
  { subst sa. unfold indexOf. simpl drop. rewrite drop_0.
    rewrite index_from_first by done. simpl length. lia. }
  rewrite substr_prefix, Ha. simpl.
  replace (sa ++ 45%N :: sb) with ((sa ++ [45%N]) ++ sb)
    by by rewrite <- app_assoc.
  replace (Z.of_nat (length sa) + 1) with (Z.of_nat (length (sa ++ [45%N])))
    by (rewrite length_app; simpl; lia).
  rewrite substr_suffix, Hb. simpl. by destruct (a >? b).
Qed.

(** A segment that matches one of the five patterns pushes a range: the
    parsers find a number wherever they look for one. *)
Lemma parse_segment_matched s :
  Exists (λ sh, test (sh.1 (res new)) s = true) shapes →
  is_Some (parse_segment new s).
Proof.
  unfold shapes. rewrite !Exists_cons, Exists_nil. cbn [fst].
  intros [H|[H|[H|[H|[H|[]]]]]].
  - apply test_number in H.
    destruct (parseFloat_int_re s H) as [v Hv].
    by rewrite (segment_number s v).
  - apply test_min2num in H as (t & -> & Ht).
    destruct (parseFloat_int_re t Ht) as [n Hn].
    by rewrite (segment_min2num t n).
  - apply test_num2max in H as (t & -> & Ht).
    destruct (parseFloat_int_re t Ht) as [n Hn].
    by rewrite (segment_num2max t n).
  - apply test_num2num in H as (sa & sb & -> & Hsa & Hsb).
    destruct (parseFloat_int_re sa Hsa) as [a Ha].
    destruct (parseFloat_int_re sb Hsb) as [b Hb].
    by rewrite (segment_num2num sa sb a b).
  - apply test_numdashnum in H as (sa & sb & -> & Hsa & Hsb).
    destruct (parseFloat_int_re sa Hsa) as [a Ha].
    destruct (parseFloat_int_re sb Hsb) as [b Hb].
    by rewrite (segment_numdashnum sa sb a b).
Qed.

(** The bounds of a pushed range are in order, except for a [~n] below
    the minimum and an [n~] above the maximum. *)
Lemma parse_segment_bounds opts s r :
  parse_segment opts s = Some r →
  r.1 ≤ r.2 ∨ (r.1 = min opts ∧ r.2 < min opts)
            ∨ (r.2 = max opts ∧ max opts < r.1).
Proof.
  unfold parse_segment. destruct (length s =? 0)%nat; [done |].
  unfold shapes, first_matched.
  repeat match goal with
         | |- context [test ?re s] => destruct (test re s)
         end; try done.
  - unfold parser.number. destruct (parseFloat s); simpl; [| done].
    intros [= <-]. simpl. lia.
  - unfold parser.min2num. destruct (parseFloat _); simpl; [| done].
    intros [= <-]. simpl. lia.
  - unfold parser.num2max. destruct (parseFloat _); simpl; [| done].
    intros [= <-]. simpl. lia.
  - unfold parser.num2num.
    destruct (parseFloat <$> split 126 s) as [|[r0|] [|[r1|] [|]]]; try done.
    destruct (Z.gtb_spec r0 r1); intros [= <-]; simpl; lia.
  - unfold parser.numdashnum.
    destruct (parseFloat (substr s 0 _)) as [r0|]; simpl; [| done].
    destruct (parseFloat (substr s _ None)) as [r1|]; simpl; [| done].
    destruct (Z.gtb_spec r0 r1); intros [= <-]; simpl; lia.
Qed.

(** *** The result as a set of integers

    When every range has its bounds in order, the result of [_merge] on
    the sorted list is determined by the integers the ranges cover. *)

Lemma covers_nil z : ¬ covers [] z.
Proof. intros (r & Hr & _). by apply elem_of_nil in Hr. Qed.

Lemma covers_cons x l z : covers (x :: l) z ↔ x.1 ≤ z ≤ x.2 ∨ covers l z.
Proof.
  unfold covers. split.
  - intros (r & [->|Hr]%elem_of_cons & Hz); eauto.
  - intros [Hz|(r & Hr & Hz)].
    + exists x. split; [by left | done].
    + exists r. split; [by right | done].
Qed.

Lemma covers_perm l1 l2 z : l1 ≡ₚ l2 → covers l1 z ↔ covers l2 z.
Proof.
  intros Hp. unfold covers.
  split; intros (r & Hr & Hz); exists r; split; try done.
  - by rewrite <- Hp.
  - by rewrite Hp.
Qed.

Lemma merge_from_ordered cur l :
  ordered cur → Forall ordered l → Forall ordered (merge_from cur l).
Proof.
  revert cur. induction l as [|r l IH]; intros cur Hcur Hl; simpl.
  - by constructor.
  - apply Forall_cons in Hl as [Hr Hl].
    destruct (r.1 >? cur.2 + 1).
    + constructor; [done | by apply IH].
    + apply IH; [| done]. unfold ordered in *. simpl.
      destruct (Z.ltb_spec cur.2 r.2); lia.
Qed.

Lemma merge_from_covers cur l z :
  ordered cur → Forall ordered l → StronglySorted le_low (cur :: l) →
  covers (merge_from cur l) z ↔ covers (cur :: l) z.
Proof.
  revert cur. induction l as [|r l IH]; intros cur Hcur Hl Hs; simpl.
  - done.
  - apply Forall_cons in Hl as [Hr Hl].
    apply StronglySorted_inv in Hs as [Hrl Hlow].
    apply Forall_cons in Hlow as [Hcr Hlow].
    destruct (Z.gtb_spec r.1 (cur.2 + 1)) as [Hgap|Hgap].
    + rewrite !covers_cons, (IH r), covers_cons; done.
    + apply StronglySorted_inv in Hrl as [Hsl _].
      rewrite IH; [| | done |].
      * rewrite !covers_cons. simpl. unfold ordered, le_low in *.
        destruct (Z.ltb_spec cur.2 r.2); intuition lia.
      * unfold ordered in *. simpl. destruct (Z.ltb_spec cur.2 r.2); lia.
      * constructor; [done |]. eapply Forall_impl; [exact Hlow |]. done.
Qed.

(** Two lists of ordered ranges, each with gaps between its ranges in
    ascending order, that cover the same integers are equal. *)
Lemma canonical_unique l1 : ∀ l2,
  StronglySorted apart l1 → StronglySorted apart l2 →
  Forall ordered l1 → Forall ordered l2 →
  (∀ z, covers l1 z ↔ covers l2 z) → l1 = l2.
Proof.
  assert (Hhead : ∀ a l z,
    StronglySorted apart (a :: l) → Forall ordered (a :: l) →
    covers (a :: l) z → a.1 ≤ z ∧ (a.2 < z → a.2 + 1 < z ∧ covers l z)).
  { intros a l z [Hl Ha]%StronglySorted_inv [Hoa Hol]%Forall_cons
      [Hz|(r & Hr & Hz)]%covers_cons; [lia |].
    rewrite Forall_forall in Ha. specialize (Ha r Hr). unfold apart in Ha.
    unfold ordered in Hoa.
    split; [lia |]. intros _. split; [lia |]. by exists r. }
  induction l1 as [|a l1 IH]; intros [|b l2] Hs1 Hs2 Ho1 Ho2 Hc.
  - done.
  - exfalso. apply (covers_nil b.1), Hc, covers_cons. left.
    apply Forall_cons in Ho2 as [Hb _]. unfold ordered in Hb. lia.
  - exfalso. apply (covers_nil a.1), Hc, covers_cons. left.
    apply Forall_cons in Ho1 as [Ha _]. unfold ordered in Ha. lia.
  - pose proof Ho1 as [Hoa Hol1]%Forall_cons.
    pose proof Ho2 as [Hob Hol2]%Forall_cons.
    unfold ordered in Hoa, Hob.
    assert (Ha : ∀ z, a.1 ≤ z ≤ a.2 → covers (b :: l2) z).
    { intros z Hz. apply Hc, covers_cons. by left. }
    assert (Hb : ∀ z, b.1 ≤ z ≤ b.2 → covers (a :: l1) z).
    { intros z Hz. apply Hc, covers_cons. by left. }
    assert (E1 : a.1 = b.1).
    { destruct (Hhead _ _ _ Hs2 Ho2 (Ha a.1 ltac:(lia))) as [? _].
      destruct (Hhead _ _ _ Hs1 Ho1 (Hb b.1 ltac:(lia))) as [? _]. lia. }
    assert (E2 : a.2 = b.2).
    { destruct (Z.lt_trichotomy a.2 b.2) as [Hlt|[?|Hlt]]; [| done |].
      - destruct (Hhead _ _ _ Hs1 Ho1 (Hb (a.2 + 1) ltac:(lia))) as [_ H].
        destruct H as [? _]; lia.
      - destruct (Hhead _ _ _ Hs2 Ho2 (Ha (b.2 + 1) ltac:(lia))) as [_ H].
        destruct H as [? _]; lia. }
    assert (a = b) as -> by (destruct a, b; simpl in *; congruence).
    f_equal. apply IH; try done.
    + by apply StronglySorted_inv in Hs1 as [? _].
    + by apply StronglySorted_inv in Hs2 as [? _].
    + intros z. split; intros Hz.
      * assert (covers (b :: l1) z) as Hz' by (apply covers_cons; auto).
        destruct (Hhead _ _ _ Hs1 Ho1 Hz') as [_ H1].
        apply Hc in Hz'. destruct (Hhead _ _ _ Hs2 Ho2 Hz') as [_ H2].
        destruct (Z.lt_ge_cases b.2 z) as [Hlt|Hge]; [by apply H2 |].
        exfalso. destruct Hz as (r & Hr & Hz).
        apply StronglySorted_inv in Hs1 as [_ Hgap].
        rewrite Forall_forall in Hgap. specialize (Hgap r Hr).
        unfold apart in Hgap. lia.
      * assert (covers (b :: l2) z) as Hz' by (apply covers_cons; auto).
        destruct (Hhead _ _ _ Hs2 Ho2 Hz') as [_ H2].
        apply Hc in Hz'. destruct (Hhead _ _ _ Hs1 Ho1 Hz') as [_ H1].
        destruct (Z.lt_ge_cases b.2 z) as [Hlt|Hge]; [by apply H1 |].
        exfalso. destruct Hz as (r & Hr & Hz).
        apply StronglySorted_inv in Hs2 as [_ Hgap].
        rewrite Forall_forall in Hgap. specialize (Hgap r Hr).
        unfold apart in Hgap. lia.
Qed.

Lemma merged_ordered l : Forall ordered l → Forall ordered (merged l).
Proof.
  destruct l as [|r l]; simpl; [done |].
  intros [Hr Hl]%Forall_cons. by apply merge_from_ordered.
Qed.

Lemma merged_covers l z :
  Forall ordered l → StronglySorted le_low l →
  covers (merged l) z ↔ covers l z.
Proof.
  destruct l as [|r l]; simpl; [done |].
  intros [Hr Hl]%Forall_cons Hs. by apply merge_from_covers.
Qed.

(** The merged result does not depend on the order of the ranges. *)
Lemma merged_sort_perm l1 l2 :
  Forall ordered l1 → l1 ≡ₚ l2 →
  merged (sort by_low l1) = merged (sort by_low l2).
Proof.
  intros Ho1 Hp.
  assert (Ho2 : Forall ordered l2) by by rewrite <- Hp.
  assert (Hso : ∀ l, Forall ordered l → Forall ordered (sort by_low l)).
  { intros l Hl. by rewrite sort_perm. }
  apply canonical_unique.
  - apply merged_sorted, sort_by_low_sorted.
  - apply merged_sorted, sort_by_low_sorted.
  - by apply merged_ordered, Hso.
  - by apply merged_ordered, Hso.
  - intros z.
    rewrite !merged_covers by auto using sort_by_low_sorted.
    rewrite (covers_perm (sort by_low l1) l1) by apply sort_perm.
    rewrite (covers_perm (sort by_low l2) l2) by apply sort_perm.
    by apply covers_perm.
Qed.

(** *** The validation and the segments *)

Lemma test_range str :
  test (range (res new)) str = true ↔
  str ≠ [] ∧ Forall (λ c, range_class c = true) str.
Proof. rewrite test_lang. apply lang_plus_cls. Qed.

Lemma test_digits ds : test (Plus (Cls is_digit)) ds = true ↔ digits ds.
Proof. rewrite test_lang. apply lang_plus_cls. Qed.

(** A comma stays where it is when the blanks go. *)
Lemma replace_blank_comma s1 s2 :
  replace_all_empty is_space (s1 ++ 44%N :: s2) =
  replace_all_empty is_space s1 ++ 44%N :: replace_all_empty is_space s2.
Proof.
  rewrite replace_all_empty_app. f_equal.
Qed.

Lemma segments_comma s1 s2 :
  segments new (s1 ++ 44%N :: s2) = segments new s1 ++ segments new s2.
Proof.
  unfold segments. simpl. by rewrite replace_blank_comma, split_app_sep.
Qed.

Lemma segments_no_comma t :
  44%N ∉ t → segments new t = [replace_all_empty is_space t].
Proof.
  intros Ht. unfold segments. simpl. apply split_no_sep.
  unfold replace_all_empty. rewrite list_elem_of_filter. by intros [_ ?].
Qed.

Lemma collect_comma s1 s2 :
  collect new (s1 ++ 44%N :: s2) = collect new s1 ++ collect new s2.
Proof. unfold collect. by rewrite segments_comma, omap_app. Qed.

Lemma test_range_comma s1 s2 :
  test (range (res new)) (s1 ++ 44%N :: s2) = true ↔
  Forall (λ c, range_class c = true) s1 ∧
  Forall (λ c, range_class c = true) s2.
Proof.
  rewrite test_range, Forall_app, Forall_cons.
  split; [tauto |]. intros [H1 H2]. split; [by destruct s1 | done].
Qed.

(** Permuted segments push permuted ranges. *)
Lemma collect_perm str1 str2 :
  segments new str1 ≡ₚ segments new str2 →
  collect new str1 ≡ₚ collect new str2.
Proof. unfold collect. by intros ->. Qed.

(** When every pushed range has its bounds in order, the order of the
    segments of a valid input does not matter. *)
Lemma parse_order_independent str1 str2 :
  test (range (res new)) str1 = true →
  test (range (res new)) str2 = true →
  segments new str1 ≡ₚ segments new str2 →
  Forall ordered (collect new str1) →
  parse new str1 = parse new str2.
Proof.
  intros H1 H2 Hp Ho. rewrite !parse_merged, H1, H2. f_equal. f_equal.
  apply merged_sort_perm; [done | by apply collect_perm].
Qed.

(** What [parse] returns, when it returns. *)
Lemma parse_returns str out :
  parse new str = Return out →
  test (range (res new)) str = true ∧
  out = wrap <$> merged (sort by_low (collect new str)).
Proof.
  rewrite parse_merged. destruct (test _ str); [| done].
  by intros [= <-].
Qed.

(** *** Where the ranges of the array end up

    In an array sorted by low end, every range lies within one element
    of the result, and two ranges of which the later starts at most one
    above the high end of the earlier lie within the same one. *)

Lemma merge_from_highs (P : Z → Prop) cur l :
  P cur.2 → Forall (λ r, P r.2) l → Forall (λ r, P r.2) (merge_from cur l).
Proof.
  revert cur. induction l as [|r l IH]; intros cur Hcur Hl; simpl.
  - by constructor.
  - apply Forall_cons in Hl as [Hr Hl].
    destruct (r.1 >? cur.2 + 1).
    + constructor; [done | by apply IH].
    + apply IH; [| done]. simpl. by destruct (cur.2 <? r.2).
Qed.

Lemma merged_ends l :
  Forall (λ x, (∃ r, r ∈ l ∧ x.1 = r.1) ∧ (∃ r, r ∈ l ∧ x.2 = r.2)) (merged l).
Proof.
  destruct l as [|cur l]; simpl; [constructor |].
  assert (Hin : Forall (λ r, r ∈ cur :: l) l).
  { apply Forall_forall. intros r Hr. by right. }
  apply Forall_and. split.
  - apply (merge_from_lows (λ z, ∃ r, r ∈ cur :: l ∧ z = r.1)).
    + exists cur. split; [by left | done].
    + eapply Forall_impl; [exact Hin |]. simpl. eauto.
  - apply (merge_from_highs (λ z, ∃ r, r ∈ cur :: l ∧ z = r.2)).
    + exists cur. split; [by left | done].
    + eapply Forall_impl; [exact Hin |]. simpl. eauto.
Qed.

Lemma merge_from_first cur l :
  ∃ x, x ∈ merge_from cur l ∧ x.1 = cur.1 ∧ cur.2 ≤ x.2.
Proof.
  revert cur. induction l as [|y l IH]; intros cur; simpl.
  - exists cur. split; [by left | lia].
  - destruct (y.1 >? cur.2 + 1).
    + exists cur. split; [by left | lia].
    + destruct (IH (cur.1, if cur.2 <? y.2 then y.2 else cur.2))
        as (x & Hx & E & Hle).
      exists x. simpl in *. split_and!; [done | done |].
      destruct (Z.ltb_spec cur.2 y.2); lia.
Qed.

Lemma sorted_head_le cur l r :
  StronglySorted le_low (cur :: l) → r ∈ cur :: l → cur.1 ≤ r.1.
Proof.
  intros [_ Hcur]%StronglySorted_inv [->|Hr]%elem_of_cons; [done |].
  rewrite Forall_forall in Hcur. by apply Hcur.
Qed.

(** The current range after a merge: same low end, and the list goes on
    after the merged range. *)
Lemma sorted_merge_head cur cur' y l :
  cur'.1 = cur.1 →
  StronglySorted le_low (cur :: y :: l) → StronglySorted le_low (cur' :: l).
Proof.
  intros E [[Hl _]%StronglySorted_inv [_ Hcur]%Forall_cons]%StronglySorted_inv.
  constructor; [done |].
  eapply Forall_impl; [exact Hcur |]. unfold le_low. intros r. lia.
Qed.

(** A range of the list that starts at most one above the high end of
    the current range ends up in the element of the current range. *)
Lemma merge_from_absorbs cur l r :
  StronglySorted le_low (cur :: l) → r ∈ l → r.1 ≤ cur.2 + 1 →
  ∃ x, x ∈ merge_from cur l ∧ x.1 = cur.1 ∧ cur.2 ≤ x.2 ∧ r.2 ≤ x.2.
Proof.
  revert cur. induction l as [|y l IH]; intros cur Hs Hr Hle.
  - by apply elem_of_nil in Hr.
  - pose proof Hs as [Hyl _]%StronglySorted_inv.
    pose proof (sorted_head_le y l r Hyl Hr) as Hyr.
    simpl. destruct (Z.gtb_spec y.1 (cur.2 + 1)); [lia |].
    set (cur' := (cur.1, if cur.2 <? y.2 then y.2 else cur.2)).
    assert (Hcur' : cur.2 ≤ cur'.2 ∧ y.2 ≤ cur'.2).
    { subst cur'. simpl. destruct (Z.ltb_spec cur.2 y.2); lia. }
    apply elem_of_cons in Hr as [->|Hr].
    + destruct (merge_from_first cur' l) as (x & Hx & E & Hx2).
      exists x. simpl in E. split_and!; [done | done | lia | lia].
    + destruct (IH cur') as (x & Hx & E & Hx2 & Hr2); [| done | lia |].
      * by apply (sorted_merge_head cur cur' y).
      * exists x. simpl in E. split_and!; [done | done | lia | lia].
Qed.

Lemma merge_from_contains cur l r :
  StronglySorted le_low (cur :: l) → r ∈ cur :: l →
  ∃ x, x ∈ merge_from cur l ∧ x.1 ≤ r.1 ∧ r.2 ≤ x.2.
Proof.
  revert cur. induction l as [|y l IH]; intros cur Hs Hr.
  - apply list_elem_of_singleton in Hr as ->. exists cur.
    split; [by left | lia].
  - apply elem_of_cons in Hr as [->|Hr].
    { destruct (merge_from_first cur (y :: l)) as (x & Hx & E & Hx2).
      exists x. split_and!; [done | lia | done]. }
    pose proof Hs as [Hyl Hcur]%StronglySorted_inv.
    apply Forall_cons in Hcur as [Hcy _]. unfold le_low in Hcy.
    simpl. destruct (y.1 >? cur.2 + 1).
    + destruct (IH y Hyl Hr) as (x & Hx & ?). exists x. split; [by right | done].
    + set (cur' := (cur.1, if cur.2 <? y.2 then y.2 else cur.2)).
      assert (Hs' : StronglySorted le_low (cur' :: l))
        by by apply (sorted_merge_head cur cur' y).
      apply elem_of_cons in Hr as [->|Hr].
      * destruct (merge_from_first cur' l) as (x & Hx & E & Hx2).
        exists x. subst cur'. simpl in *. split_and!; [done | lia |].
        destruct (Z.ltb_spec cur.2 y.2); lia.
      * apply (IH cur' Hs'). by right.
Qed.

Lemma merge_from_joins cur l : ∀ i j r1 r2,
  StronglySorted le_low (cur :: l) →
  (cur :: l) !! i = Some r1 → (cur :: l) !! j = Some r2 → (i < j)%nat →
  r2.1 ≤ r1.2 + 1 →
  ∃ x, x ∈ merge_from cur l ∧ x.1 ≤ r1.1 ∧ r1.2 ≤ x.2 ∧ r2.2 ≤ x.2.
Proof.
  revert cur. induction l as [|y l IH]; intros cur i j r1 r2 Hs Hi Hj Hij Hle.
  - destruct j as [|j]; [lia |]. by destruct j.
  - destruct j as [|j]; [lia |]. cbn [lookup list_lookup] in Hj.
    destruct i as [|i].
    + injection Hi as <-.
      destruct (merge_from_absorbs cur (y :: l) r2 Hs) as (x & Hx & E & ? & ?);
        [by eapply list_elem_of_lookup_2 | done |].
      exists x. split_and!; [done | lia | done | done].
    + cbn [lookup list_lookup] in Hi.
      pose proof Hs as [Hyl Hcur]%StronglySorted_inv.
      apply Forall_cons in Hcur as [Hcy _]. unfold le_low in Hcy.
      simpl. destruct (y.1 >? cur.2 + 1).
      * destruct (IH y i j r1 r2 Hyl Hi Hj) as (x & Hx & ?); [lia | done |].
        exists x. split; [by right | done].
      * set (cur' := (cur.1, if cur.2 <? y.2 then y.2 else cur.2)).
        assert (Hs' : StronglySorted le_low (cur' :: l))
          by by apply (sorted_merge_head cur cur' y).
        assert (Hcur' : y.2 ≤ cur'.2).
        { subst cur'. simpl. destruct (Z.ltb_spec cur.2 y.2); lia. }
        destruct i as [|i].
        -- injection Hi as <-. destruct j as [|j]; [lia |].
           destruct (merge_from_absorbs cur' l r2 Hs')
             as (x & Hx & E & ? & ?);
             [by eapply list_elem_of_lookup_2 | lia |].
           exists x. simpl in E. split_and!; [done | lia | lia | done].
        -- destruct j as [|j]; [lia |].
           apply (IH cur' (S i) (S j) r1 r2 Hs'); [done | done | lia | done].
Qed.

Lemma merged_contains l r :
  StronglySorted le_low l → r ∈ l →
  ∃ x, x ∈ merged l ∧ x.1 ≤ r.1 ∧ r.2 ≤ x.2.
Proof.
  destruct l as [|cur l]; [by intros _ ?%elem_of_nil |].
  apply merge_from_contains.
Qed.

Lemma merged_joins l i j r1 r2 :
  StronglySorted le_low l →
  l !! i = Some r1 → l !! j = Some r2 → (i < j)%nat → r2.1 ≤ r1.2 + 1 →
  ∃ x, x ∈ merged l ∧ x.1 ≤ r1.1 ∧ r1.2 ≤ x.2 ∧ r2.2 ≤ x.2.
Proof.
  destruct l as [|cur l]; [done |]. apply merge_from_joins.
Qed.

(** Two adjacent ranges, wherever they stand in the array, and the one
    range from the low end of the first to the higher of the two high
    ends leave the same result. *)
Lemma merge_from_adjacent pre : ∀ cur a b d rest,
  merge_from cur (pre ++ (a, b) :: (b + 1, d) :: rest) =
  merge_from cur (pre ++ (a, Z.max b d) :: rest).
Proof.
  induction pre as [|y pre IH]; intros cur a b d rest.
  - cbn [app merge_from fst snd].
    destruct (Z.gtb_spec a (cur.2 + 1)).
    + destruct (Z.gtb_spec (b + 1) (b + 1)); [lia |].
      do 2 f_equal. f_equal. destruct (Z.ltb_spec b d); lia.
    + destruct (Z.ltb_spec cur.2 b), (Z.ltb_spec cur.2 (Z.max b d));
        cbn [fst snd];
        repeat match goal with
               | |- context [?x >? ?y] => destruct (Z.gtb_spec x y); try lia
               | |- context [?x <? ?y] => destruct (Z.ltb_spec x y); try lia
               end;
        do 2 f_equal; lia.
  - cbn [app merge_from]. destruct (y.1 >? cur.2 + 1); by rewrite IH.
Qed.

Lemma merged_adjacent pre a b d rest :
  merged (pre ++ (a, b) :: (b + 1, d) :: rest) =
  merged (pre ++ (a, Z.max b d) :: rest).
Proof.
  destruct pre as [|y pre]; [| apply merge_from_adjacent].
  cbn [app merged merge_from fst snd].
  destruct (Z.gtb_spec (b + 1) (b + 1)); [lia |].
  do 2 f_equal. destruct (Z.ltb_spec b d); lia.
Qed.

(** ** Properties of [parse] *)

Example parse_dash_overlap :
  parse new (lit "1-5,3-10") = Return [Range (1, 10)].
Proof. reflexivity. Qed.

Example parse_letters : parse new (lit "abc") = Throw InvalidString.
Proof. reflexivity. Qed.

Example parse_only_comma : parse new (lit ",") = Return [].
Proof. reflexivity. Qed.

(** C1, as the code has it: [parse("")] throws.  The [range] pattern
    ends in [+], so the empty string fails the validation and is never
    split into segments. *)
Theorem parse_empty_throws :
  test (range (res new)) (lit "") = false ∧
  parse new (lit "") = Throw InvalidString.
Proof. split; reflexivity. Qed.

(** C1, as stated, fails: [parse("")] neither passes the validation nor
    returns the empty array. *)
Lemma parse_empty_not_returned :
  ¬ (test (range (res new)) (lit "") = true ∧ parse new (lit "") = Return []).
Proof. intros [H _]. discriminate H. Qed.

(** C2, as the code has it: [parse] throws its error exactly when the
    input is empty or holds a character outside [[\s\d\-~,]]; it throws
    nothing else, and otherwise returns the merged result, so a call
    ends in either the error or the whole result. *)
Theorem parse_throws_iff (str : list N) :
  (parse new str = Throw InvalidString ↔
     str = [] ∨ ∃ c, c ∈ str ∧ range_class c = false) ∧
  parse new str ≠ Throw TypeError ∧
  (parse new str = Throw InvalidString ∨
   parse new str = Return (wrap <$> merged (sort by_low (collect new str)))).
Proof.
  rewrite parse_merged.
  destruct (test (range (res new)) str) eqn:E.
  - split_and!; [| done | by right]. split; [done |].
    apply test_range in E as [Hne Hall]. intros [->|(c & Hc & Hbad)]; [done |].
    rewrite Forall_forall in Hall. specialize (Hall c Hc). congruence.
  - split_and!; [| done | by left]. split; [| done]. intros _.
    destruct str as [|c0 str]; [by left | right].
    apply not_true_iff_false in E. rewrite test_range in E.
    destruct (decide (Forall (λ c, range_class c = true) (c0 :: str)))
      as [Hall|Hall]; [by destruct E |].
    apply not_Forall_Exists in Hall; [| intros c; apply _].
    apply Exists_exists in Hall as (c & Hc & Hbad).
    exists c. split; [done | by apply not_true_is_false].
Qed.

(** C2, as stated, fails on the empty string: it holds no character at
    all, yet [parse] throws. *)
Lemma parse_throws_without_bad_char :
  ¬ (parse new (lit "") = Throw InvalidString ↔
       ∃ c, c ∈ lit "" ∧ range_class c = false).
Proof.
  intros [H _]. destruct (H eq_refl) as (c & Hc & _).
  by apply elem_of_nil in Hc.
Qed.

(** C3 fails on the code: [min2num] and [num2max] put the bound next to
    the number as it is, so [~n] with [n] below the minimum and [n~] with
    [n] above the maximum give a range whose low end is above its high
    end, and [parse] returns it so. *)
Theorem min2num_num2max_reversed :
  parse_segment new (lit "~-5000000000") = Some (-4294967295, -5000000000) ∧
  parse_segment new (lit "5000000000~") = Some (5000000000, 4294967295) ∧
  parse new (lit "~-5000000000") = Return [Range (-4294967295, -5000000000)] ∧
  ¬ (-4294967295 ≤ -5000000000) ∧ ¬ (5000000000 ≤ 4294967295).
Proof. split_and!; [reflexivity.. | lia | lia]. Qed.

(** C4: in the array [parse] returns the lows ascend, and every element
    starts more than one above the high end of every earlier one. *)
Theorem parse_sorted_apart (str : list N) (out : list item) :
  parse new str = Return out →
  ∀ i j a b, (i < j)%nat → out !! i = Some a → out !! j = Some b →
    low a ≤ low b ∧ ¬ (low b ≤ high a + 1).
Proof.
  rewrite parse_merged. destruct (test _ str); [| done].
  intros [= <-] i j a b Hij Hi Hj.
  apply list_lookup_fmap_Some in Hi as (ra & -> & Hi).
  apply list_lookup_fmap_Some in Hj as (rb & -> & Hj).
  rewrite !low_wrap, high_wrap.
  destruct (merged_sorted _ (sort_by_low_sorted (collect new str)))
    as [Hlow Hgap].
  pose proof (StronglySorted_lookup _ _ i j ra rb Hlow Hij Hi Hj) as H1.
  pose proof (StronglySorted_lookup _ _ i j ra rb Hgap Hij Hi Hj) as H2.
  unfold le_low, apart in *. lia.
Qed.

Lemma parse_sorted_apart_witness :
  low (Scalar 1) ≤ low (Range (3, 4)) ∧
  ¬ (low (Range (3, 4)) ≤ high (Scalar 1) + 1).
Proof.
  apply (parse_sorted_apart (lit "1,3,4") [Scalar 1; Range (3, 4)] eq_refl
           0%nat 1%nat); [lia | reflexivity | reflexivity].
Defined.

(** C5 fails on the code: with the reversed range of [~-5000000000]
    first, [~3] starts a range of its own; with [~3] first, the reversed
    range is merged into it. *)
Theorem parse_order_dependent :
  segments new (lit "~-5000000000,~3") ≡ₚ segments new (lit "~3,~-5000000000") ∧
  parse new (lit "~-5000000000,~3") =
    Return [Range (-4294967295, -5000000000); Range (-4294967295, 3)] ∧
  parse new (lit "~3,~-5000000000") = Return [Range (-4294967295, 3)].
Proof. split_and!; [apply Permutation_swap | reflexivity | reflexivity]. Qed.

(** C6: a token [a~b] whose first number is above its second one is
    pushed with its ends swapped; [parse("5~2")] returns [[[2,5]]]. *)
Theorem num2num_swaps (sa sb : list N) (a b : Z) :
  test (number (res new)) sa = true →
  test (number (res new)) sb = true →
  parseFloat sa = Some a → parseFloat sb = Some b →
  a > b →
  parse_segment new (sa ++ 126%N :: sb) = Some (b, a) ∧
  parse new (lit "5~2") = Return [Range (2, 5)].
Proof.
  intros Hsa%test_number Hsb%test_number Ha Hb Hab.
  split; [| reflexivity].
  rewrite (segment_num2num sa sb a b) by done.
  by destruct (Z.gtb_spec a b); [| lia].
Qed.

Lemma num2num_swaps_witness :
  parse_segment new (lit "5" ++ 126%N :: lit "2") = Some (2, 5) ∧
  parse new (lit "5~2") = Return [Range (2, 5)].
Proof.
  apply (num2num_swaps (lit "5") (lit "2") 5 2);
    [reflexivity | reflexivity | reflexivity | reflexivity | lia].
Defined.

(** C7: the bounds of the constructor are [-(2^32 - 1)] and [2^32 - 1];
    [~n] is pushed as [[min, n]] and [n~] as [[n, max]]; and
    [parse("~3,5~")] returns the two ranges, unmerged. *)
Theorem default_bounds_open_ranges (s : list N) (n : Z) :
  test (number (res new)) s = true →
  parseFloat s = Some n →
  min new = - (2 ^ 32 - 1) ∧ max new = 2 ^ 32 - 1 ∧
  parse_segment new (126%N :: s) = Some (min new, n) ∧
  parse_segment new (s ++ [126%N]) = Some (n, max new) ∧
  parse new (lit "~3,5~") = Return [Range (min new, 3); Range (5, max new)].
Proof.
  intros Hs%test_number Hn.
  split_and!; [reflexivity | reflexivity | | | reflexivity].
  - by apply segment_min2num.
  - by apply segment_num2max.
Qed.

Lemma default_bounds_open_ranges_witness :
  min new = - (2 ^ 32 - 1) ∧ max new = 2 ^ 32 - 1 ∧
  parse_segment new (126%N :: lit "-7") = Some (min new, -7) ∧
  parse_segment new (lit "-7" ++ [126%N]) = Some (-7, max new) ∧
  parse new (lit "~3,5~") = Return [Range (min new, 3); Range (5, max new)].
Proof.
  apply (default_bounds_open_ranges (lit "-7") (-7)); reflexivity.
Defined.

Lemma wrap_canonical r :
  wrap r = if low (wrap r) =? high (wrap r)
           then Scalar (low (wrap r))
           else Range (low (wrap r), high (wrap r)).
Proof. rewrite low_wrap, high_wrap. unfold wrap. by destruct r. Qed.

(** In a list sorted by low end a range with a lower low end comes
    first. *)
Lemma sorted_lookup_lt l i j (r1 r2 : interval) :
  StronglySorted le_low l →
  l !! i = Some r1 → l !! j = Some r2 → r1.1 < r2.1 → (i < j)%nat.
Proof.
  intros Hs Hi Hj Hlt.
  destruct (Nat.lt_trichotomy i j) as [?|[->|Hji]]; [done | |].
  - rewrite Hi in Hj. injection Hj as ->. lia.
  - pose proof (StronglySorted_lookup _ _ j i r2 r1 Hs Hji Hj Hi) as H.
    unfold le_low in H. lia.
Qed.

(** C8: wherever they stand, two ranges of which the second starts
    right after the high end of the first are merged, and a range with
    equal ends is returned as the bare number.  In the array [parse]
    returns every element is a bare number exactly when its two ends are
    equal, and two pushed ranges [r1], [r2] with [r2] starting at the
    high end of [r1] plus one lie within one and the same element.
    [_merge] gives every array the same treatment, and at any place of
    an array the two adjacent ranges [(a,b)], [(b+1,d)] and the one
    range [(a, max b d)] have the same result.  [parse("1,3,4")] returns
    [[1, [3,4]]]. *)
Theorem adjacent_merged_scalar_bare (str : list N) (out : list item)
    (rg pre rest : list interval) (a b d : Z) :
  parse new str = Return out →
  (∀ x, x ∈ out →
     x = if low x =? high x then Scalar (low x) else Range (low x, high x)) ∧
  (∀ r1 r2, r1 ∈ collect new str → r2 ∈ collect new str →
     r1.1 ≤ r1.2 → r2.1 = r1.2 + 1 →
     ∃ x, x ∈ out ∧ low x ≤ r1.1 ∧ r1.2 ≤ high x ∧ r2.2 ≤ high x) ∧
  (∃ out', _merge rg = Some out' ∧
     ∀ x, x ∈ out' →
       x = if low x =? high x then Scalar (low x) else Range (low x, high x)) ∧
  _merge (pre ++ (a, b) :: (b + 1, d) :: rest) =
    _merge (pre ++ (a, Z.max b d) :: rest) ∧
  parse new (lit "1,3,4") = Return [Scalar 1; Range (3, 4)] ∧
  parse new (lit "1~5,6~10") = Return [Range (1, 10)] ∧
  parse new (lit "1,3") = Return [Scalar 1; Scalar 3].
Proof.
  intros [_ ->]%parse_returns.
  split_and!; [| | | | reflexivity | reflexivity | reflexivity].
  - intros x (r & -> & _)%list_elem_of_fmap. apply wrap_canonical.
  - intros r1 r2 Hr1 Hr2 Ho Hadj.
    pose proof (sort_by_low_sorted (collect new str)) as Hs.
    rewrite <- (sort_perm by_low) in Hr1, Hr2.
    apply list_elem_of_lookup in Hr1 as [i Hi].
    apply list_elem_of_lookup in Hr2 as [j Hj].
    assert (Hij : (i < j)%nat)
      by (apply (sorted_lookup_lt _ i j r1 r2 Hs Hi Hj); lia).
    destruct (merged_joins _ i j r1 r2 Hs Hi Hj Hij) as (x & Hx & ?); [lia |].
    exists (wrap x). rewrite low_wrap, high_wrap.
    split; [by apply list_elem_of_fmap_2 | done].
  - exists (wrap <$> merged rg). split; [apply _merge_merged |].
    intros x (r & -> & _)%list_elem_of_fmap. apply wrap_canonical.
  - by rewrite !_merge_merged, merged_adjacent.
Qed.

Lemma adjacent_merged_scalar_bare_witness :
  (∀ x, x ∈ [Scalar 1; Range (3, 4)] →
     x = if low x =? high x then Scalar (low x) else Range (low x, high x)) ∧
  (∀ r1 r2, r1 ∈ collect new (lit "4,1,3") → r2 ∈ collect new (lit "4,1,3") →
     r1.1 ≤ r1.2 → r2.1 = r1.2 + 1 →
     ∃ x, x ∈ [Scalar 1; Range (3, 4)] ∧
          low x ≤ r1.1 ∧ r1.2 ≤ high x ∧ r2.2 ≤ high x) ∧
  (∃ out', _merge [(3, 3); (7, 7)] = Some out' ∧
     ∀ x, x ∈ out' →
       x = if low x =? high x then Scalar (low x) else Range (low x, high x)) ∧
  _merge ([(0, 1)] ++ (3, 3) :: (3 + 1, 4) :: [(9, 9)]) =
    _merge ([(0, 1)] ++ (3, Z.max 3 4) :: [(9, 9)]) ∧
  parse new (lit "1,3,4") = Return [Scalar 1; Range (3, 4)] ∧
  parse new (lit "1~5,6~10") = Return [Range (1, 10)] ∧
  parse new (lit "1,3") = Return [Scalar 1; Scalar 3].
Proof.
  apply (adjacent_merged_scalar_bare (lit "4,1,3") [Scalar 1; Range (3, 4)]
           [(3, 3); (7, 7)] [(0, 1)] [(9, 9)] 3 3 4).
  reflexivity.
Defined.

(** C9: a segment of permitted characters that is not empty once its
    blanks are gone and matches none of the five patterns is skipped,
    wherever it stands.  Alone it gives the empty array; in front of an
    input, after it, and between two parts of it, the outcome is that of
    the input without the segment.  In a valid input that holds it,
    [parse] throws nothing, every segment that does match a pattern
    pushes its range, which lies within an element of the result, and
    both ends of every element come from ranges pushed by other
    segments: the rest is parsed as ever and the segment adds nothing.
    So [parse("~,1")], [parse("1,~")] and [parse("1,~,3")] return [[1]],
    [[1]] and [[1,3]]. *)
Theorem unmatched_token_skipped (t s1 s2 str : list N) :
  Forall (λ c, range_class c = true) t →
  44%N ∉ t →
  replace_all_empty (blank (res new)) t ≠ [] →
  Forall (λ sh, test (sh.1 (res new))
                  (replace_all_empty (blank (res new)) t) = false) shapes →
  parse new t = Return [] ∧
  (s2 ≠ [] → parse new (t ++ 44%N :: s2) = parse new s2) ∧
  (s1 ≠ [] → parse new (s1 ++ 44%N :: t) = parse new s1) ∧
  parse new (s1 ++ 44%N :: t ++ 44%N :: s2) = parse new (s1 ++ 44%N :: s2) ∧
  (test (range (res new)) str = true →
   replace_all_empty (blank (res new)) t ∈ segments new str →
   ∃ out, parse new str = Return out ∧
     (∀ u, u ∈ segments new str →
        Exists (λ sh, test (sh.1 (res new)) u = true) shapes →
        ∃ r x, parse_segment new u = Some r ∧
               x ∈ out ∧ low x ≤ r.1 ∧ r.2 ≤ high x) ∧
     (∀ x, x ∈ out →
        ∃ u1 r1 u2 r2,
          u1 ∈ segments new str ∧ u2 ∈ segments new str ∧
          u1 ≠ replace_all_empty (blank (res new)) t ∧
          u2 ≠ replace_all_empty (blank (res new)) t ∧
          parse_segment new u1 = Some r1 ∧ parse_segment new u2 = Some r2 ∧
          low x = r1.1 ∧ high x = r2.2)) ∧
  parse new (lit "~,1") = Return [Scalar 1] ∧
  parse new (lit "1,~") = Return [Scalar 1] ∧
  parse new (lit "1,~,3") = Return [Scalar 1; Scalar 3].
Proof.
  simpl blank. intros Hperm Hcomma Hne Hnone.
  assert (Hseg : parse_segment new (replace_all_empty is_space t) = None).
  { rewrite parse_segment_unfold by done.
    unfold shapes in Hnone.
    repeat (apply Forall_cons in Hnone as [E Hnone]; cbn [fst] in E;
            rewrite E; clear E).
    done. }
  assert (Hcol : collect new t = []).
  { unfold collect. rewrite segments_no_comma by done. simpl. by rewrite Hseg. }
  split_and!; [| | | | | reflexivity | reflexivity | reflexivity].
  - rewrite parse_merged, Hcol.
    assert (test (range (res new)) t = true) as ->; [| done].
    apply test_range. split; [| done]. by intros ->.
  - intros Hs2. rewrite !parse_merged, collect_comma, Hcol. simpl app.
    assert (test (range (res new)) (t ++ 44%N :: s2) =
            test (range (res new)) s2) as ->; [| done].
    apply eq_iff_eq_true. rewrite test_range_comma, test_range. tauto.
  - intros Hs1. rewrite !parse_merged, collect_comma, Hcol, app_nil_r.
    assert (test (range (res new)) (s1 ++ 44%N :: t) =
            test (range (res new)) s1) as ->; [| done].
    apply eq_iff_eq_true. rewrite test_range_comma, test_range. tauto.
  - rewrite !parse_merged, !collect_comma, Hcol. simpl app.
    assert (test (range (res new)) (s1 ++ 44%N :: t ++ 44%N :: s2) =
            test (range (res new)) (s1 ++ 44%N :: s2)) as ->; [| done].
    apply eq_iff_eq_true. rewrite !test_range.
    rewrite !Forall_app, !Forall_cons, Forall_app, Forall_cons.
    split; intros [_ H]; (split; [by destruct s1 | tauto]).
  - intros Hstr Hin. eexists. split; [by rewrite parse_merged, Hstr |].
    pose proof (sort_by_low_sorted (collect new str)) as Hs. split.
    + intros u Hu Hm. destruct (parse_segment_matched u Hm) as [r Hr].
      assert (Hrc : r ∈ sort by_low (collect new str)).
      { rewrite sort_perm. apply list_elem_of_omap. eauto. }
      destruct (merged_contains _ r Hs Hrc) as (x & Hx & ? & ?).
      exists r, (wrap x). rewrite low_wrap, high_wrap.
      split_and!; [done | by apply list_elem_of_fmap_2 | done | done].
    + intros x (x' & -> & Hx')%list_elem_of_fmap.
      rewrite low_wrap, high_wrap.
      pose proof (merged_ends (sort by_low (collect new str))) as H.
      rewrite Forall_forall in H.
      destruct (H x' Hx') as [(r1 & Hr1 & E1) (r2 & Hr2 & E2)].
      rewrite sort_perm in Hr1, Hr2.
      apply list_elem_of_omap in Hr1 as (u1 & Hu1 & Hp1).
      apply list_elem_of_omap in Hr2 as (u2 & Hu2 & Hp2).
      exists u1, r1, u2, r2.
      split_and!; try done; intros ->; congruence.
Qed.

Lemma unmatched_token_skipped_witness :
  parse new (lit "~") = Return [] ∧
  (lit " 3" ≠ [] → parse new (lit "~" ++ 44%N :: lit " 3") = parse new (lit " 3")) ∧
  (lit "1" ≠ [] → parse new (lit "1" ++ 44%N :: lit "~") = parse new (lit "1")) ∧
  parse new (lit "1" ++ 44%N :: lit "~" ++ 44%N :: lit " 3") =
    parse new (lit "1" ++ 44%N :: lit " 3") ∧
  (test (range (res new)) (lit "5~7,~,6") = true →
   replace_all_empty (blank (res new)) (lit "~") ∈ segments new (lit "5~7,~,6") →
   ∃ out, parse new (lit "5~7,~,6") = Return out ∧
     (∀ u, u ∈ segments new (lit "5~7,~,6") →
        Exists (λ sh, test (sh.1 (res new)) u = true) shapes →
        ∃ r x, parse_segment new u = Some r ∧
               x ∈ out ∧ low x ≤ r.1 ∧ r.2 ≤ high x) ∧
     (∀ x, x ∈ out →
        ∃ u1 r1 u2 r2,
          u1 ∈ segments new (lit "5~7,~,6") ∧ u2 ∈ segments new (lit "5~7,~,6") ∧
          u1 ≠ replace_all_empty (blank (res new)) (lit "~") ∧
          u2 ≠ replace_all_empty (blank (res new)) (lit "~") ∧
          parse_segment new u1 = Some r1 ∧ parse_segment new u2 = Some r2 ∧
          low x = r1.1 ∧ high x = r2.2)) ∧
  parse new (lit "~,1") = Return [Scalar 1] ∧
  parse new (lit "1,~") = Return [Scalar 1] ∧
  parse new (lit "1,~,3") = Return [Scalar 1; Scalar 3].
Proof.
  apply (unmatched_token_skipped (lit "~") (lit "1") (lit " 3") (lit "5~7,~,6")).
  - repeat constructor.
  - vm_compute. intros H. inversion H as [|? ? ? H']. inversion H'.
  - vm_compute. discriminate.
  - repeat constructor.
Defined.

(** C10: a token [a--b] matches [numdashnum]; the dash found from
    position 1 on is the first of the two, so the numbers are [a] and
    [-b], pushed in ascending order; [parse("1--2")] returns [[[-2,1]]]. *)
Theorem double_dash_token (da db : list N) :
  test (Plus (Cls is_digit)) da = true →
  test (Plus (Cls is_digit)) db = true →
  test (numdashnum (res new)) (da ++ 45%N :: 45%N :: db) = true ∧
  indexOf (da ++ 45%N :: 45%N :: db) 45 1 = Z.of_nat (length da) ∧
  parse_segment new (da ++ 45%N :: 45%N :: db) =
    Some (- digits_value db, digits_value da) ∧
  parse new (lit "1--2") = Return [Range (-2, 1)].
Proof.
  intros Hda%test_digits Hdb%test_digits.
  pose proof (lang_int_re_digits da Hda) as Ha.
  pose proof (lang_int_re_minus db Hdb) as Hb.
  destruct Hda as [Hnea Hda], Hdb as [Hneb Hdb].
  split_and!; [| | | reflexivity].
  - apply test_numdashnum. by exists da, (45%N :: db).
  - destruct da as [|c da]; [done |]. apply Forall_cons in Hda as [_ Hda].
    unfold indexOf. simpl drop. rewrite drop_0.
    rewrite index_from_first by (apply digits_no; auto).
    simpl length. lia.
  - rewrite (segment_numdashnum da (45%N :: db)
               (digits_value da) (- digits_value db)); try done.
    + pose proof (digits_value_nonneg da). pose proof (digits_value_nonneg db).
      destruct (Z.gtb_spec (digits_value da) (- digits_value db)); [done |].
      f_equal. f_equal; lia.
    + pose proof (parseFloat_digits da [] Hnea Hda stops_nil) as E.
      by rewrite app_nil_r in E.
    + pose proof (parseFloat_minus_digits db [] Hneb Hdb stops_nil) as E.
      by rewrite app_nil_r in E.
Qed.

Lemma double_dash_token_witness :
  test (numdashnum (res new)) (lit "10" ++ 45%N :: 45%N :: lit "25") = true ∧
  indexOf (lit "10" ++ 45%N :: 45%N :: lit "25") 45 1 = 2 ∧
  parse_segment new (lit "10" ++ 45%N :: 45%N :: lit "25") = Some (-25, 10) ∧
  parse new (lit "1--2") = Return [Range (-2, 1)].
Proof.
  apply (double_dash_token (lit "10") (lit "25")); reflexivity.
Defined.

(** ** Further properties of the parser *)

(** *** The result as the union of the ranges *)

Lemma denotes_wrap l z : denotes (wrap <$> l) z ↔ covers l z.
Proof.
  unfold denotes, covers. split.
  - intros (x & (r & -> & Hr)%list_elem_of_fmap & Hz).
    rewrite low_wrap, high_wrap in Hz. eauto.
  - intros (r & Hr & Hz). exists (wrap r).
    rewrite low_wrap, high_wrap. split; [| done].
    by apply list_elem_of_fmap_2.
Qed.

Lemma sort_by_low_ordered l :
  Forall ordered l → Forall ordered (sort by_low l).
Proof. intros Hl. by rewrite sort_perm. Qed.

Lemma merged_sort_covers l z :
  Forall ordered l → covers (merged (sort by_low l)) z ↔ covers l z.
Proof.
  intros Hl.
  rewrite merged_covers by auto using sort_by_low_ordered, sort_by_low_sorted.
  apply covers_perm, sort_perm.
Qed.

(** Lists of ordered ranges that cover the same integers merge into
    the same list. *)
Lemma merged_sort_ext l1 l2 :
  Forall ordered l1 → Forall ordered l2 →
  (∀ z, covers l1 z ↔ covers l2 z) →
  merged (sort by_low l1) = merged (sort by_low l2).
Proof.
  intros Ho1 Ho2 Hc. apply canonical_unique.
  - apply merged_sorted, sort_by_low_sorted.
  - apply merged_sorted, sort_by_low_sorted.
  - by apply merged_ordered, sort_by_low_ordered.
  - by apply merged_ordered, sort_by_low_ordered.
  - intros z. by rewrite !merged_sort_covers.
Qed.

(** Evaluate the ranges a literal input pushes. *)
Ltac eval_collect :=
  repeat match goal with
         | |- context [collect new (lit ?s)] =>
             let v := eval vm_compute in (collect new (lit s)) in
             change (collect new (lit s)) with v
         end.

Ltac ordered_list :=
  eval_collect; repeat constructor; unfold ordered; simpl; lia.

Lemma denotes_parse l z :
  Forall ordered l →
  denotes (wrap <$> merged (sort by_low l)) z ↔ covers l z.
Proof. intros Ho. by rewrite denotes_wrap, merged_sort_covers. Qed.

Ltac safe_list :=
  eval_collect; repeat constructor; unfold safe; simpl; lia.

(** X1: when every range the segments push has its bounds in order and
    all its numbers are safe integers, the array [parse] returns stands
    for exactly the integers of those ranges: nothing is lost in the
    merge and nothing is added. *)
Theorem parse_denotes (str : list N) (out : list item) (z : Z) :
  parse new str = Return out →
  Forall safe_range (collect new str) →
  Forall ordered (collect new str) →
  denotes out z ↔ covers (collect new str) z.
Proof. intros [_ ->]%parse_returns _ Ho. by apply denotes_parse. Qed.

Lemma parse_denotes_witness :
  denotes [Range (1, 10)] 7 ↔ covers (collect new (lit "1-5,3-10")) 7.
Proof.
  apply (parse_denotes (lit "1-5,3-10") [Range (1, 10)] 7 eq_refl);
    [safe_list | ordered_list].
Defined.

(** X2: two valid inputs whose ranges, all with their bounds in order
    and with safe integers for numbers, cover the same integers give
    the same array, whatever the tokens, their order and their
    number. *)
Theorem parse_same_integers (str1 str2 : list N) (out1 : list item) :
  parse new str1 = Return out1 →
  test (range (res new)) str2 = true →
  Forall safe_range (collect new str1) →
  Forall safe_range (collect new str2) →
  Forall ordered (collect new str1) →
  Forall ordered (collect new str2) →
  (∀ z, covers (collect new str1) z ↔ covers (collect new str2) z) →
  parse new str2 = Return out1.
Proof.
  intros [_ ->]%parse_returns H2 _ _ Ho1 Ho2 Hc.
  rewrite parse_merged, H2. do 2 f_equal. symmetry.
  by apply merged_sort_ext.
Qed.

Lemma parse_same_integers_witness :
  parse new (lit "1~10") = Return [Range (1, 10)].
Proof.
  apply (parse_same_integers (lit "3-10,1-5,4") (lit "1~10") _ eq_refl eq_refl);
    [safe_list | safe_list | ordered_list | ordered_list |].
  intros z. eval_collect. rewrite !covers_cons. simpl.
  split; [intros [?|[?|[?|[]%covers_nil]]] | intros [?|[]%covers_nil]]; lia.
Defined.

(** *** Blanks and commas *)

Lemma range_class_space c : is_space c = true → range_class c = true.
Proof. unfold range_class. by intros ->. Qed.

(** The validation looks at what is left without the blanks, and at
    whether there is anything at all. *)
Lemma test_range_blanks str :
  test (range (res new)) str = true ↔
  str ≠ [] ∧
  Forall (λ c, range_class c = true) (replace_all_empty is_space str).
Proof.
  rewrite test_range. unfold replace_all_empty.
  split; intros [Hne Hall]; (split; [done |]).
  - rewrite Forall_forall in Hall. apply Forall_forall.
    intros c [_ Hc]%list_elem_of_filter. auto.
  - rewrite Forall_forall in Hall. apply Forall_forall. intros c Hc.
    destruct (is_space c) eqn:Hsp; [by apply range_class_space |].
    apply Hall, list_elem_of_filter. done.
Qed.

(** X3: blanks do not count, wherever they stand, digits of one number
    included: two non-empty inputs that are equal once their blanks are
    removed have the same outcome, be it the array or the error. *)
Theorem parse_blanks_ignored (str1 str2 : list N) :
  str1 ≠ [] → str2 ≠ [] →
  replace_all_empty is_space str1 = replace_all_empty is_space str2 →
  parse new str1 = parse new str2.
Proof.
  intros Hne1 Hne2 E. rewrite !parse_merged.
  assert (test (range (res new)) str1 = test (range (res new)) str2) as ->.
  { apply eq_iff_eq_true. rewrite !test_range_blanks, E. tauto. }
  unfold collect, segments. simpl blank. by rewrite E.
Qed.

Lemma parse_blanks_ignored_witness :
  parse new (lit " 1 2 ~ 1 5 , 20 ") = parse new (lit "12~15,20").
Proof.
  apply (parse_blanks_ignored (lit " 1 2 ~ 1 5 , 20 ") (lit "12~15,20"));
    [discriminate | discriminate | reflexivity].
Defined.

Lemma collect_nil : collect new [] = [].
Proof. reflexivity. Qed.

Lemma collect_comma_head str : collect new (44%N :: str) = collect new str.
Proof. apply (collect_comma [] str). Qed.

(** X4: a comma in front, a comma at the end and a comma right after
    another one change nothing, as long as the input without the first
    two is not empty. *)
Theorem parse_commas_ignored (str s1 s2 : list N) :
  str ≠ [] →
  parse new (44%N :: str) = parse new str ∧
  parse new (str ++ [44%N]) = parse new str ∧
  parse new (s1 ++ 44%N :: 44%N :: s2) = parse new (s1 ++ 44%N :: s2).
Proof.
  intros Hne. rewrite !parse_merged. split_and!.
  - rewrite collect_comma_head.
    assert (test (range (res new)) (44%N :: str) =
            test (range (res new)) str) as ->; [| done].
    apply eq_iff_eq_true. rewrite !test_range, Forall_cons.
    split; [tauto |]. intros [_ H]. done.
  - rewrite collect_comma, collect_nil, app_nil_r.
    assert (test (range (res new)) (str ++ [44%N]) =
            test (range (res new)) str) as ->; [| done].
    apply eq_iff_eq_true. rewrite test_range_comma, test_range.
    split; [tauto |]. intros [_ H]. split; [done | constructor].
  - rewrite (collect_comma s1 (44%N :: s2)), collect_comma_head,
      (collect_comma s1 s2).
    assert (test (range (res new)) (s1 ++ 44%N :: 44%N :: s2) =
            test (range (res new)) (s1 ++ 44%N :: s2)) as ->; [| done].
    apply eq_iff_eq_true. rewrite !test_range_comma, Forall_cons.
    split; [tauto |]. intros [H1 H2]. split_and!; done.
Qed.

Lemma parse_commas_ignored_witness :
  parse new (44%N :: lit "1,2") = parse new (lit "1,2") ∧
  parse new (lit "1,2" ++ [44%N]) = parse new (lit "1,2") ∧
  parse new (lit "5" ++ 44%N :: 44%N :: lit "9") =
  parse new (lit "5" ++ 44%N :: lit "9").
Proof.
  apply (parse_commas_ignored (lit "1,2") (lit "5") (lit "9")). discriminate.
Defined.

Lemma covers_app l1 l2 z : covers (l1 ++ l2) z ↔ covers l1 z ∨ covers l2 z.
Proof.
  unfold covers. split.
  - intros (r & [Hr|Hr]%elem_of_app & Hz); eauto.
  - intros [(r & Hr & Hz)|(r & Hr & Hz)]; exists r;
      (split; [apply elem_of_app; auto | done]).
Qed.

(** X5: joining two inputs with a comma gives the union: when both
    return, all their ranges have their bounds in order and all their
    numbers are safe integers, the joined input returns an array that
    stands for the integers of the one or of the other. *)
Theorem parse_comma_union (s1 s2 : list N) (out1 out2 : list item) :
  parse new s1 = Return out1 →
  parse new s2 = Return out2 →
  Forall safe_range (collect new s1) →
  Forall safe_range (collect new s2) →
  Forall ordered (collect new s1) →
  Forall ordered (collect new s2) →
  ∃ out, parse new (s1 ++ 44%N :: s2) = Return out ∧
         ∀ z, denotes out z ↔ denotes out1 z ∨ denotes out2 z.
Proof.
  intros [[_ Hv1]%test_range ->]%parse_returns
         [[_ Hv2]%test_range ->]%parse_returns _ _ Ho1 Ho2.
  eexists. split.
  - rewrite parse_merged.
    assert (test (range (res new)) (s1 ++ 44%N :: s2) = true) as ->; [| done].
    by apply test_range_comma.
  - intros z. rewrite !denotes_parse, collect_comma; [| done | done |].
    + apply covers_app.
    + rewrite collect_comma. by apply Forall_app.
Qed.

Lemma parse_comma_union_witness :
  ∃ out, parse new (lit "1~3" ++ 44%N :: lit "3~8,20") = Return out ∧
         ∀ z, denotes out z ↔
              denotes [Range (1, 3)] z ∨ denotes [Range (3, 8); Scalar 20] z.
Proof.
  apply (parse_comma_union (lit "1~3") (lit "3~8,20") _ _ eq_refl eq_refl);
    [safe_list | safe_list | ordered_list | ordered_list].
Defined.

(** *** The elements of the result *)

(** X6: a range in the returned array has its low end strictly below
    its high end when the ranges pushed have their bounds in order: a
    single integer always comes out as the bare number, never as a
    range of one. *)
Theorem parse_range_proper (str : list N) (out : list item) (r : interval) :
  parse new str = Return out →
  Forall ordered (collect new str) →
  Range r ∈ out →
  r.1 < r.2.
Proof.
  intros [_ ->]%parse_returns Ho (r' & E & Hr')%list_elem_of_fmap.
  pose proof (merged_ordered _ (sort_by_low_ordered _ Ho)) as Hm.
  rewrite Forall_forall in Hm. specialize (Hm r' Hr').
  unfold wrap, ordered in *.
  destruct (Z.eqb_spec r'.1 r'.2); [done |].
  injection E as ->. lia.
Qed.

Lemma parse_range_proper_witness : (3, 4).1 < (3, 4).2.
Proof.
  apply (parse_range_proper (lit "1,3,4") [Scalar 1; Range (3, 4)] (3, 4)
           eq_refl); [ordered_list |].
  apply elem_of_cons. right. apply elem_of_cons. by left.
Defined.

Lemma merge_from_length cur l : (length (merge_from cur l) ≤ S (length l))%nat.
Proof.
  revert cur. induction l as [|r l IH]; intros cur; simpl; [done |].
  destruct (r.1 >? cur.2 + 1); simpl.
  - specialize (IH r). lia.
  - specialize (IH (cur.1, if cur.2 <? r.2 then r.2 else cur.2)). lia.
Qed.

Lemma length_omap_le {A B} (f : A → option B) (l : list A) :
  (length (omap f l) ≤ length l)%nat.
Proof.
  induction l as [|x l IH]; [done |].
  change (omap f (x :: l))
    with (match f x with Some y => y :: omap f l | None => omap f l end).
  destruct (f x); simpl; lia.
Qed.

(** X7: [parse] makes up no number and no element: the array has at
    most as many elements as ranges were pushed, which are at most as
    many as segments, and the low end of each element is the low end of
    a pushed range, its high end the high end of a pushed range. *)
Theorem parse_ends_from_input (str : list N) (out : list item) :
  parse new str = Return out →
  (length out ≤ length (collect new str) ≤ length (segments new str))%nat ∧
  ∀ x, x ∈ out →
    (∃ r, r ∈ collect new str ∧ low x = r.1) ∧
    (∃ r, r ∈ collect new str ∧ high x = r.2).
Proof.
  intros [_ ->]%parse_returns. split_and!.
  - rewrite length_fmap.
    assert (length (sort by_low (collect new str)) =
            length (collect new str)) as <-
      by apply Permutation_length, sort_perm.
    destruct (sort by_low (collect new str)) as [|cur l]; simpl; [lia |].
    apply merge_from_length.
  - apply length_omap_le.
  - intros x (r' & -> & Hr')%list_elem_of_fmap.
    rewrite low_wrap, high_wrap.
    pose proof (merged_ends (sort by_low (collect new str))) as H.
    rewrite Forall_forall in H.
    destruct (H r' Hr') as [(r1 & Hr1 & E1) (r2 & Hr2 & E2)].
    rewrite sort_perm in Hr1, Hr2.
    split; [by exists r1 | by exists r2].
Qed.

Lemma parse_ends_from_input_witness :
  (length [Range (1%Z, 10%Z); Scalar 20%Z]
   ≤ length (collect new (lit "3~10,1-5,,20"))
   ≤ length (segments new (lit "3~10,1-5,,20")))%nat ∧
  ∀ x, x ∈ [Range (1, 10); Scalar 20] →
    (∃ r, r ∈ collect new (lit "3~10,1-5,,20") ∧ low x = r.1) ∧
    (∃ r, r ∈ collect new (lit "3~10,1-5,,20") ∧ high x = r.2).
Proof.
  apply (parse_ends_from_input (lit "3~10,1-5,,20")). reflexivity.
Defined.

(** *** The loop of [_merge] *)

(** X8: [_merge] walks the array from left to right: the empty array
    and the array of one range come back as they are, wrapped; after a
    first range whose high end [b] is a safe integer, a second range
    that starts above [b + 1] leaves the first as it is and becomes the
    current one, and any other second range is dropped, the first
    taking the higher of the two high ends.  No slot that is [null] or
    missing is read on the way. *)
Theorem merge_equations (a b c d : Z) (rest : list interval) :
  safe b →
  _merge [] = Some [] ∧
  _merge [(a, b)] = Some [wrap (a, b)] ∧
  _merge ((a, b) :: (c, d) :: rest) =
    (if c >? b + 1
     then cons (wrap (a, b)) <$> _merge ((c, d) :: rest)
     else _merge ((a, Z.max b d) :: rest)).
Proof.
  intros _. rewrite !_merge_merged. split_and!; [done | done |].
  cbn [merged merge_from fst snd].
  destruct (c >? b + 1); [done |].
  replace (Z.max b d) with (if b <? d then d else b); [done |].
  destruct (Z.ltb_spec b d); lia.
Qed.

Lemma merge_equations_witness :
  _merge [] = Some [] ∧
  _merge [(1, 5)] = Some [wrap (1, 5)] ∧
  _merge ((1, 5) :: (3, 9) :: [(20, 21)]) =
    (if 3 >? 5 + 1
     then cons (wrap (1, 5)) <$> _merge ((3, 9) :: [(20, 21)])
     else _merge ((1, Z.max 5 9) :: [(20, 21)])).
Proof.
  apply (merge_equations 1 5 3 9 [(20, 21)]). unfold safe. lia.
Defined.

Lemma merged_apart l : StronglySorted apart l → merged l = l.
Proof.
  destruct l as [|cur l]; [done |]. simpl.
  revert cur. induction l as [|r l IH]; intros cur Hs; simpl; [done |].
  apply StronglySorted_inv in Hs as [Hrl [Hr _]%Forall_cons].
  unfold apart in Hr.
  destruct (Z.gtb_spec r.1 (cur.2 + 1)); [| lia].
  by rewrite IH.
Qed.

(** X9: an array of ranges with safe integers for high ends, in which
    every range starts more than one above the high end of every
    earlier one, is left as it is by [_merge], which only wraps its
    elements. *)
Theorem merge_apart_unchanged (l : list interval) :
  Forall (λ r, safe r.2) l →
  StronglySorted apart l → _merge l = Some (wrap <$> l).
Proof. intros _ Hs. by rewrite _merge_merged, merged_apart. Qed.

Lemma merge_apart_unchanged_witness :
  _merge [(1, 2); (5, 5); (9, 12)] = Some (wrap <$> [(1, 2); (5, 5); (9, 12)]).
Proof.
  apply merge_apart_unchanged.
  - repeat constructor; unfold safe; simpl; lia.
  - repeat constructor; unfold apart; simpl; lia.
Defined.

(** *** The five patterns *)

(** How a segment that matches a pattern starts and ends, and whether
    it holds a [~], or a [-] after its first character. *)
Lemma int_re_ends s :
  lang int_re s →
  head s ≠ Some 126%N ∧ (∃ d, last s = Some d ∧ is_digit d = true).
Proof.
  intros H. split.
  - destruct (int_re_head s H) as (c & t & -> & ? & _). simpl. congruence.
  - destruct (int_re_last s H) as (t & d & -> & ?). exists d.
    by rewrite last_snoc.
Qed.

Lemma number_shape s :
  test (number (res new)) s = true →
  head s ≠ Some 126%N ∧ (∃ d, last s = Some d ∧ is_digit d = true) ∧
  (126%N ∉ s) ∧ (45%N ∉ tail s).
Proof.
  intros H%test_number. destruct (int_re_ends s H) as [? ?].
  split_and!; [done | done | by apply int_re_no_tilde |].
  by destruct (int_re_head s H) as (c & t & -> & _ & ? & _).
Qed.

Lemma min2num_shape s :
  test (min2num (res new)) s = true → head s = Some 126%N.
Proof. by intros (t & -> & Ht)%test_min2num. Qed.

Lemma num2max_shape s :
  test (num2max (res new)) s = true →
  head s ≠ Some 126%N ∧ last s = Some 126%N.
Proof.
  intros (t & -> & Ht)%test_num2max. split; [| by rewrite last_snoc].
  destruct (int_re_head t Ht) as (c & u & -> & ? & _). simpl. congruence.
Qed.

Lemma sep_shape sep s :
  (∃ a b, s = a ++ sep :: b ∧ lang int_re a ∧ lang int_re b) →
  head s ≠ Some 126%N ∧ (∃ d, last s = Some d ∧ is_digit d = true) ∧
  (sep ∈ tail s) ∧ (sep ≠ 126%N → 126%N ∉ s).
Proof.
  intros (a & b & -> & Ha & Hb). split_and!.
  - destruct (int_re_head a Ha) as (c & u & -> & ? & _). simpl. congruence.
  - destruct (int_re_last b Hb) as (u & d & -> & Hd). exists d.
    split; [| done].
    replace (a ++ sep :: u ++ [d]) with ((a ++ sep :: u) ++ [d])
      by by rewrite <- app_assoc.
    by rewrite last_snoc.
  - destruct (int_re_head a Ha) as (c & u & -> & _). simpl.
    apply elem_of_app. right. by left.
  - intros Hsep [Hin|Hin]%elem_of_app.
    + by apply (int_re_no_tilde a).
    + apply elem_of_cons in Hin as [?|Hin]; [done |].
      by apply (int_re_no_tilde b).
Qed.

Lemma num2num_shape s :
  test (num2num (res new)) s = true →
  head s ≠ Some 126%N ∧ (∃ d, last s = Some d ∧ is_digit d = true) ∧
  (126%N ∈ s).
Proof.
  intros H%test_num2num. destruct (sep_shape 126 s H) as (? & ? & Hin & _).
  split_and!; [done | done |]. destruct s; [done | by right].
Qed.

Lemma numdashnum_shape s :
  test (numdashnum (res new)) s = true →
  head s ≠ Some 126%N ∧ (∃ d, last s = Some d ∧ is_digit d = true) ∧
  (126%N ∉ s) ∧ (45%N ∈ tail s).
Proof.
  intros H%test_numdashnum. destruct (sep_shape 45 s H) as (? & ? & ? & Hno).
  split_and!; [done | done | by apply Hno | done].
Qed.

(** Close a goal from two incompatible descriptions of a segment. *)
Ltac clash :=
  repeat match goal with
         | H : _ ∧ _ |- _ => destruct H
         | H : ∃ _, _ |- _ => destruct H
         end;
  try done;
  match goal with
  | H : last ?s = Some ?d, H' : last ?s = Some 126%N, Hd : is_digit ?d = true
    |- _ => rewrite H in H'; injection H' as ->; discriminate Hd
  end.

(** What the pattern it matches says about a segment. *)
Ltac shape_of H :=
  first [ apply number_shape in H | apply min2num_shape in H
        | apply num2max_shape in H | apply num2num_shape in H
        | apply numdashnum_shape in H ].

(** X10: no segment matches two of the five patterns, so the order in
    which [parse] tries them decides nothing. *)
Theorem patterns_exclusive (s : list N) (i j : nat)
    (shi shj : (patterns → regex) * (list N → options → option interval)) :
  shapes !! i = Some shi → shapes !! j = Some shj → i ≠ j →
  test (shi.1 (res new)) s = true →
  test (shj.1 (res new)) s = false.
Proof.
  intros Hi Hj Hij Hti. apply not_true_is_false. intros Htj.
  unfold shapes in Hi, Hj.
  destruct i as [|[|[|[|[|i]]]]]; simplify_eq/=;
    destruct j as [|[|[|[|[|j]]]]]; simplify_eq/=;
    shape_of Hti; shape_of Htj;
    clash.
Qed.

Lemma patterns_exclusive_witness :
  test (numdashnum (res new)) (lit "1~2") = false.
Proof.
  apply (patterns_exclusive (lit "1~2") 3 4
           (num2num, parser.num2num) (numdashnum, parser.numdashnum));
    [reflexivity | reflexivity | discriminate | reflexivity].
Defined.

Lemma token_char_other c :
  token_char c → range_class c = true ∧ is_space c = false ∧ c ≠ 44%N.
Proof.
  unfold range_class. intros [Hd|[->| ->]]; [| done | done].
  destruct (digit_other c Hd) as (_ & _ & ? & Hsp).
  rewrite Hsp, Hd. done.
Qed.

Lemma int_re_chars s : lang int_re s → Forall token_char s.
Proof.
  intros (ds & [_ Hds] & Hs)%lang_int_re.
  assert (Forall token_char ds).
  { eapply Forall_impl; [exact Hds |]. intros c Hc. by left. }
  destruct Hs as [->| ->]; [done |].
  constructor; [right; by left | done].
Qed.

Lemma matched_chars s :
  Exists (λ sh, test (sh.1 (res new)) s = true) shapes →
  s ≠ [] ∧ Forall token_char s.
Proof.
  assert (Htilde : token_char 126) by (right; by right).
  assert (Hdash : token_char 45) by (right; by left).
  assert (Hne : ∀ t, lang int_re t → t ≠ []).
  { intros t (c & u & -> & _)%int_re_head. done. }
  unfold shapes. rewrite !Exists_cons, Exists_nil. cbn [fst].
  intros [H|[H|[H|[H|[H|[]]]]]].
  - apply test_number in H. split; [by apply Hne | by apply int_re_chars].
  - apply test_min2num in H as (t & -> & Ht). split; [done |].
    constructor; [done | by apply int_re_chars].
  - apply test_num2max in H as (t & -> & Ht). split.
    + by destruct t.
    + apply Forall_app. split; [by apply int_re_chars | by constructor].
  - apply test_num2num in H as (a & b & -> & Ha & Hb). split.
    + by destruct a.
    + apply Forall_app. split; [by apply int_re_chars |].
      constructor; [done | by apply int_re_chars].
  - apply test_numdashnum in H as (a & b & -> & Ha & Hb). split.
    + by destruct a.
    + apply Forall_app. split; [by apply int_re_chars |].
      constructor; [done | by apply int_re_chars].
Qed.

(** X11: a string that matches one of the five patterns is a valid
    input by itself: [parse] does not throw, and returns the one range
    the matching parser builds, as a bare number when its ends are
    equal. *)
Theorem token_alone (s : list N) :
  Exists (λ sh, test (sh.1 (res new)) s = true) shapes →
  ∃ r, parse_segment new s = Some r ∧ parse new s = Return [wrap r].
Proof.
  intros Hm. destruct (parse_segment_matched s Hm) as [r Hr].
  destruct (matched_chars s Hm) as [Hne Hch].
  exists r. split; [done |].
  assert (Hcls : Forall (λ c, range_class c = true) s).
  { eapply Forall_impl; [exact Hch |]. intros c Hc.
    by apply token_char_other. }
  assert (Hstrip : replace_all_empty is_space s = s).
  { unfold replace_all_empty. clear -Hch.
    induction Hch as [|c s Hc _ IH]; [done |].
    rewrite filter_cons_True by by apply token_char_other.
    by rewrite IH. }
  assert (Hcomma : 44%N ∉ s).
  { intros Hin. rewrite Forall_forall in Hch.
    by destruct (token_char_other _ (Hch _ Hin)) as (_ & _ & ?). }
  rewrite parse_merged.
  assert (test (range (res new)) s = true) as -> by by apply test_range.
  unfold collect. rewrite segments_no_comma, Hstrip by done.
  simpl. by rewrite Hr.
Qed.

Lemma token_alone_witness :
  ∃ r, parse_segment new (lit "-3--8") = Some r ∧
       parse new (lit "-3--8") = Return [wrap r].
Proof.
  apply token_alone. unfold shapes. do 4 apply Exists_cons_tl.
  apply Exists_cons_hd. reflexivity.
Defined.

(** X12: the two ends of a range token can be written in either order
    and with either separator: for two integer literals with values [a]
    and [b], the tokens [a~b], [b~a], [a-b] and [b-a] all push the range
    from the lower to the higher value. *)
Theorem range_token_either_way (sa sb : list N) (a b : Z) :
  test (number (res new)) sa = true →
  test (number (res new)) sb = true →
  parseFloat sa = Some a → parseFloat sb = Some b →
  parse_segment new (sa ++ 126%N :: sb) = Some (Z.min a b, Z.max a b) ∧
  parse_segment new (sb ++ 126%N :: sa) = Some (Z.min a b, Z.max a b) ∧
  parse_segment new (sa ++ 45%N :: sb) = Some (Z.min a b, Z.max a b) ∧
  parse_segment new (sb ++ 45%N :: sa) = Some (Z.min a b, Z.max a b).
Proof.
  intros Hsa%test_number Hsb%test_number Ha Hb.
  rewrite (segment_num2num sa sb a b), (segment_num2num sb sa b a),
    (segment_numdashnum sa sb a b), (segment_numdashnum sb sa b a) by done.
  destruct (Z.gtb_spec a b), (Z.gtb_spec b a);
    split_and!; f_equal; f_equal; lia.
Qed.

Lemma range_token_either_way_witness :
  parse_segment new (lit "7" ++ 126%N :: lit "-2") = Some (Z.min 7 (-2), Z.max 7 (-2)) ∧
  parse_segment new (lit "-2" ++ 126%N :: lit "7") = Some (Z.min 7 (-2), Z.max 7 (-2)) ∧
  parse_segment new (lit "7" ++ 45%N :: lit "-2") = Some (Z.min 7 (-2), Z.max 7 (-2)) ∧
  parse_segment new (lit "-2" ++ 45%N :: lit "7") = Some (Z.min 7 (-2), Z.max 7 (-2)).
Proof.
  apply (range_token_either_way (lit "7") (lit "-2") 7 (-2)); reflexivity.
Defined.

(** *** Inputs without [~] *)

Lemma split_elem sep s t c : t ∈ split sep s → c ∈ t → c ∈ s.
Proof.
  revert t. induction s as [|c0 s IH]; intros t Ht Hc; simpl in Ht.
  - apply list_elem_of_singleton in Ht as ->. done.
  - destruct (c0 =? sep)%N.
    + apply elem_of_cons in Ht as [->|Ht]; [by apply elem_of_nil in Hc |].
      right. by apply (IH t).
    + destruct (split sep s) as [|seg segs]; simpl in Ht.
      * apply list_elem_of_singleton in Ht as ->.
        apply list_elem_of_singleton in Hc as ->. by left.
      * apply elem_of_cons in Ht as [->|Ht].
        -- apply elem_of_cons in Hc as [->|Hc]; [by left | right].
           apply (IH seg); [by left | done].
        -- right. apply (IH t); [by right | done].
Qed.

Lemma segments_elem str t c : t ∈ segments new str → c ∈ t → c ∈ str.
Proof.
  unfold segments. intros Ht Hc.
  pose proof (split_elem _ _ _ _ Ht Hc) as Hin.
  unfold replace_all_empty in Hin. by apply list_elem_of_filter in Hin as [_ ?].
Qed.

(** Apart from [min2num] and [num2max], the parsers put the ends in
    order. *)
Lemma parse_segment_closed t r :
  parse_segment new t = Some r →
  test (min2num (res new)) t = false →
  test (num2max (res new)) t = false →
  ordered r.
Proof.
  unfold parse_segment. destruct (length t =? 0)%nat; [done |].
  unfold shapes, first_matched. cbn [fst snd]. intros H H1 H2.
  rewrite H1, H2 in H. unfold ordered.
  destruct (test (number (res new)) t).
  { unfold parser.number in H. destruct (parseFloat t); simpl in H; [| done].
    injection H as <-. simpl. lia. }
  destruct (test (num2num (res new)) t).
  { unfold parser.num2num in H.
    destruct (parseFloat <$> split 126 t) as [|[r0|] [|[r1|] [|]]]; try done.
    destruct (Z.gtb_spec r0 r1); injection H as <-; simpl; lia. }
  destruct (test (numdashnum (res new)) t); [| done].
  unfold parser.numdashnum in H.
  destruct (parseFloat (substr t 0 _)) as [r0|]; simpl in H; [| done].
  destruct (parseFloat (substr t _ None)) as [r1|]; simpl in H; [| done].
  destruct (Z.gtb_spec r0 r1); injection H as <-; simpl; lia.
Qed.

(** X13: an input without any [~] pushes only ranges with their bounds
    in order, however large its numbers, and the order of its segments
    does not matter: a valid input with the same segments in another
    order has the same result. *)
Theorem parse_without_tilde (str1 str2 : list N) :
  126%N ∉ str1 →
  test (range (res new)) str1 = true →
  test (range (res new)) str2 = true →
  segments new str1 ≡ₚ segments new str2 →
  Forall ordered (collect new str1) ∧ parse new str1 = parse new str2.
Proof.
  intros Hno H1 H2 Hp.
  assert (Ho : Forall ordered (collect new str1)).
  { apply Forall_forall. intros r (t & Ht & Hr)%list_elem_of_omap.
    assert (Hnt : 126%N ∉ t).
    { intros Hin. apply Hno. by apply (segments_elem str1 t). }
    apply (parse_segment_closed t r Hr); apply not_true_is_false.
    - intros (u & -> & _)%test_min2num. apply Hnt. by left.
    - intros (u & -> & _)%test_num2max. apply Hnt, elem_of_app.
      right. by left. }
  split; [done |].
  rewrite !parse_merged, H1, H2. do 2 f_equal.
  apply merged_sort_perm; [done | by apply collect_perm].
Qed.

Lemma parse_without_tilde_witness :
  Forall ordered (collect new (lit "9-4,99999999999,1--2")) ∧
  parse new (lit "9-4,99999999999,1--2") =
  parse new (lit "1--2,9-4,99999999999").
Proof.
  apply parse_without_tilde; [| reflexivity | reflexivity |].
  - rewrite list_elem_of_In. vm_compute. intuition discriminate.
  - vm_compute.
    etrans; [apply Permutation_skip, Permutation_swap |].
    apply Permutation_swap.
Defined.

(** *** The empty array *)

Lemma parse_segment_None t :
  parse_segment new t = None ↔
  ¬ Exists (λ sh, test (sh.1 (res new)) t = true) shapes.
Proof.
  split.
  - intros Hn Hm. destruct (parse_segment_matched t Hm) as [r Hr]. congruence.
  - intros Hm. unfold parse_segment. destruct (length t =? 0)%nat; [done |].
    unfold shapes in *. rewrite !Exists_cons, Exists_nil in Hm.
    cbn [fst] in Hm. cbn [first_matched].
    repeat match goal with
           | |- context [test ?re t] =>
               destruct (test re t) eqn:?; [exfalso; tauto |]
           end.
    done.
Qed.

Lemma merge_from_not_nil cur l : merge_from cur l ≠ [].
Proof.
  revert cur. induction l as [|x l IH]; intros cur; simpl; [done |].
  destruct (x.1 >? cur.2 + 1); [done | apply IH].
Qed.

(** X14: [parse] returns the empty array exactly when the input is
    valid and none of its segments matches a pattern; one matching
    segment is enough for a result with an element. *)
Theorem parse_returns_nothing (str : list N) :
  parse new str = Return [] ↔
  test (range (res new)) str = true ∧
  Forall (λ t, ¬ Exists (λ sh, test (sh.1 (res new)) t = true) shapes)
         (segments new str).
Proof.
  assert (Hcol : collect new str = [] ↔
                 Forall (λ t, parse_segment new t = None) (segments new str)).
  { unfold collect. induction (segments new str) as [|t l IH].
    - split; [constructor | done].
    - change (omap (parse_segment new) (t :: l))
        with (match parse_segment new t with
              | Some y => y :: omap (parse_segment new) l
              | None => omap (parse_segment new) l
              end).
      rewrite Forall_cons. destruct (parse_segment new t); [| tauto].
      split; [done | by intros [? _]]. }
  assert (Hmer : ∀ l, wrap <$> merged (sort by_low l) = [] ↔ l = []).
  { intros l. split; [| by intros ->].
    intros E%fmap_nil_inv. destruct l as [|r l]; [done | exfalso].
    pose proof (sort_perm by_low (r :: l)) as Hp.
    destruct (sort by_low (r :: l)) as [|cur l'].
    - by apply Permutation_nil_cons in Hp.
    - by apply (merge_from_not_nil cur l'). }
  rewrite parse_merged. destruct (test (range (res new)) str).
  - split.
    + intros [= E%Hmer]. split; [done |]. apply Hcol in E.
      eapply Forall_impl; [exact E |]. intros t. apply parse_segment_None.
    + intros [_ H]. f_equal. apply Hmer, Hcol.
      eapply Forall_impl; [exact H |]. intros t. apply parse_segment_None.
  - split; [done | by intros [? _]].
Qed.
